(** * kubecfg diff: the diff-and-reduce engine of pkg/kubecfg/diff.go

    A shallow embedding of the subset reducer ([removeFields],
    [removeMapFields], [removeListFields]), the emptiness predicate
    ([isEmptyValue]), the diff formatter ([formatDiff] with the two regular
    expressions [DiffLineStart] and [DiffKeyValue]) and the strategy
    dispatcher ([Run]), followed by the properties of the specification
    that were checked against them. *)

From Stdlib Require Import ZArith Floats.SpecFloat Ascii String.
From stdpp Require Import gmap strings list fin_maps pretty.

#[local] Set Warnings "-register-all".
#[local] Open Scope string_scope.
#[local] Open Scope list_scope.
#[local] Open Scope stdpp_scope.
#[local] Arguments String.append !_ _ / : simpl nomatch.

(** ** Decoded values

    Go's [interface{}] holds a value of any dynamic type.  The type switches
    of diff.go distinguish the eight types below; [VOther] stands for a value
    of any other dynamic type (the [default:] arm), tagged with the name of
    its type.  A [float64] is an IEEE-754 datum ([spec_float]), an [int64] an
    integer, a Go string a sequence of bytes. *)

Inductive value : Type :=
| VList (v : list value)            (* []interface{} *)
| VStrings (v : list string)        (* []string *)
| VMap (v : gmap string value)      (* map[string]interface{} *)
| VBool (v : bool)                  (* bool *)
| VFloat (v : spec_float)           (* float64 *)
| VInt (v : Z)                      (* int64 *)
| VString (v : string)              (* string *)
| VNil                              (* nil *)
| VOther (ty : string).             (* any other dynamic type *)

(** ** Panics

    [isEmptyValue] panics on an unexpected type, and the panic unwinds
    through the reducer.  [outcome] is the error monad that threads it.  The
    panic's message is not recorded: when two values of a map would both
    panic, Go's randomised iteration order decides which is reported. *)

Inductive outcome (A : Type) : Type :=
| Ret (a : A)
| Panic.
Arguments Ret {A} a.
Arguments Panic {A}.

#[export] Instance outcome_ret : MRet outcome := @Ret.
#[export] Instance outcome_bind : MBind outcome := fun A B f m =>
  match m with
  | Ret a => f a
  | Panic => Panic
  end.
#[export] Instance outcome_fmap : FMap outcome := fun A B f m =>
  match m with
  | Ret a => Ret (f a)
  | Panic => Panic
  end.

(** ** The emptiness predicate (diff.go, isEmptyValue) *)

Definition isEmptyValue (i : value) : outcome bool :=
  match i with
  | VList v => Ret (length v =? 0)%nat
  | VStrings v => Ret (length v =? 0)%nat
  | VMap v => Ret (size v =? 0)%nat
  | VBool v => Ret (negb v)
  | VFloat v => Ret (SFeqb v (S754_zero false))
  | VInt v => Ret (v =? 0)%Z
  | VString v => Ret (String.eqb v "")
  | VNil => Ret true
  | VOther _ => Panic
  end.

(** ** The subset reducer (diff.go, removeFields and its two helpers)

    The three Go functions are mutually recursive.  The bodies of the two
    loops are written once, over the function used for the recursive call;
    [removeFields] ties the knot, and [removeMapFields] and
    [removeListFields] are the loops at [removeFields]. *)

Section Loops.
Variable recurse : value -> value -> outcome value.

(** One iteration of [for k, v1 := range config] in removeMapFields;
    [acc] is the [result] map built so far. *)
Definition mapFieldStep (live : gmap string value)
    (k : string) (v1 : value) (acc : outcome (gmap string value))
    : outcome (gmap string value) :=
  result ← acc;
  match live !! k with
  | None =>
      empty ← isEmptyValue v1;
      if empty : bool then Ret (<[k := v1]> result) else Ret result
  | Some v2 =>
      r ← recurse v1 v2;
      Ret (<[k := r]> result)
  end.

Definition mapFieldsLoop (config live : gmap string value)
    : outcome (gmap string value) :=
  map_fold (mapFieldStep live) (Ret ∅) config.

(** [for i, v2 := range live] in removeListFields, with [result] the
    slice appended to.  [config] is what is left of the config slice from
    index [i] on: [len(config) > i] reads "[config] is not exhausted" and
    [config[i]] is its head.  Once [config] is exhausted every remaining
    iteration takes the [else] arm and appends [v2] as it is. *)
Fixpoint listFieldsLoop (config live : list value) (result : list value)
    {struct config} : outcome (list value) :=
  match config with
  | c :: config' =>
      match live with
      | v2 :: live' =>
          r ← recurse c v2;
          listFieldsLoop config' live' (result ++ [r])
      | [] => Ret result
      end
  | [] => Ret (foldl (fun result v2 => result ++ [v2]) result live)
  end.
End Loops.

Fixpoint removeFields (config live : value) {struct config} : outcome value :=
  match config with
  | VMap c =>
      match live with
      | VMap live => VMap <$> mapFieldsLoop removeFields c live
      | _ => Ret live
      end
  | VList c =>
      match live with
      | VList live => VList <$> listFieldsLoop removeFields c live []
      | _ => Ret live
      end
  | _ => Ret live
  end.

Definition removeMapFields (config live : gmap string value)
    : outcome (gmap string value) :=
  mapFieldsLoop removeFields config live.

Definition removeListFields (config live : list value) : outcome (list value) :=
  listFieldsLoop removeFields config live [].

(** ** Documents

    The document decoder only produces lists, string-keyed maps, strings,
    booleans, numbers and nil; [decoded] checks that no value of another
    dynamic type occurs anywhere in a document. *)

Fixpoint decoded (v : value) : bool :=
  match v with
  | VList l => forallb decoded l
  | VMap m => map_fold (fun _ x acc => decoded x && acc) true m
  | VOther _ => false
  | _ => true
  end.

(** The zero value of each kind, as the specification lists them. *)
Inductive zeroValue : value -> Prop :=
| zero_list : zeroValue (VList [])
| zero_strings : zeroValue (VStrings [])
| zero_map : zeroValue (VMap ∅)
| zero_bool : zeroValue (VBool false)
| zero_float (sign : bool) : zeroValue (VFloat (S754_zero sign))
| zero_int : zeroValue (VInt 0)
| zero_string : zeroValue (VString "")
| zero_nil : zeroValue VNil.

(** The closed set of kinds the emptiness predicate classifies. *)
Definition closedKind (v : value) : Prop :=
  match v with
  | VOther _ => False
  | _ => True
  end.

(** A measure for induction on nested values. *)
Fixpoint value_size (v : value) : nat :=
  match v with
  | VList l => S (foldr (fun x acc => value_size x + acc) 0 l)
  | VMap m => S (map_fold (fun _ x acc => value_size x + acc) 0 m)
  | _ => 1
  end.

(** ** What the loops compute, key by key and index by index *)

Section LoopResults.
Variable recurse : value -> value -> outcome value.

(** What one key of [config] contributes to the result: [Some] of the
    value stored under the key, or [None] when the key is left out. *)
Definition fieldResult (live : gmap string value) (k : string) (v1 : value) : outcome (option value) :=
  match live !! k with
  | Some v2 => Some <$> recurse v1 v2
  | None => empty ← isEmptyValue v1; Ret (if empty : bool then Some v1 else None)
  end.

Definition fieldsOf (live config result : gmap string value) : Prop :=
  forall k,
    match config !! k with
    | Some v1 => fieldResult live k v1 = Ret (result !! k)
    | None => result !! k = None
    end.

(** The elements the loop appends, index by index. *)
Definition elementsOf (config live appended : list value) : Prop :=
  length appended = length live /\
  forall i v2, live !! i = Some v2 ->
    match config !! i with
    | Some c => exists r, recurse c v2 = Ret r /\ appended !! i = Some r
    | None => appended !! i = Some v2
    end.

End LoopResults.

(** Sample documents. *)
Definition desiredMap : gmap string value :=
  <["a" := VInt 0]> (<["b" := VInt 1]> (<["c" := VInt 5]> ∅)).
Definition liveMap : gmap string value :=
  <["b" := VInt 1]> (<["z" := VInt 2]> ∅).


(** ** Regular expressions (Go's regexp, the constructs diff.go uses)

    Go's regexp package finds the leftmost match and, among the matches that
    start there, the one a backtracking search finds first: the left
    alternative before the right one, more repetitions before fewer.  [exec]
    is that search, in continuation-passing style.  Texts are sequences of
    bytes; the two expressions of diff.go only name ASCII characters, so
    matching byte by byte and rune by rune give the same replacements. *)

Inductive regex : Type :=
| Byte (c : ascii)                  (* a literal character *)
| Class (p : ascii -> bool)         (* a character class, [.] and [\s] included *)
| ClassPlus (p : ascii -> bool)     (* a character class under [+], greedy *)
| Cat (r1 r2 : regex)               (* [r1 r2] *)
| Alt (r1 r2 : regex)               (* [r1|r2], the left alternative preferred *)
| Opt (r : regex)                   (* [r?], greedy *)
| Group (i : nat) (r : regex)       (* the [i]-th capturing group *)
| Bol.                              (* [^], the beginning of the text *)

Record mstate : Type := MState {
  pos : nat;                        (* offset in the text *)
  rest : string;                    (* the text from [pos] on *)
  caps : list (nat * string)        (* the groups captured so far, last first *)
}.

Definition advance (n : nat) (s : string) (st : mstate) : mstate :=
  {| pos := pos st + n; rest := s; caps := caps st |}.

Definition capture (i : nat) (from st : mstate) : mstate :=
  {| pos := pos st; rest := rest st;
     caps := (i, substring 0 (pos st - pos from) (rest from)) :: caps st |}.

(** One or more characters of class [p]: after each character, first try to
    take more, then to go on with the rest of the expression. *)
Fixpoint plusLoop {R : Type} (p : ascii -> bool) (s : string) (n : nat)
    (k : nat -> string -> option R) : option R :=
  match s with
  | String c s' =>
      if p c then
        match plusLoop p s' (S n) k with
        | Some r => Some r
        | None => k (S n) s'
        end
      else None
  | EmptyString => None
  end.

Fixpoint exec (r : regex) (st : mstate) (k : mstate -> option mstate)
    {struct r} : option mstate :=
  match r with
  | Byte c =>
      match rest st with
      | String d s' => if Ascii.eqb d c then k (advance 1 s' st) else None
      | EmptyString => None
      end
  | Class p =>
      match rest st with
      | String d s' => if p d then k (advance 1 s' st) else None
      | EmptyString => None
      end
  | ClassPlus p => plusLoop p (rest st) 0 (fun n s' => k (advance n s' st))
  | Cat r1 r2 => exec r1 st (fun st' => exec r2 st' k)
  | Alt r1 r2 =>
      match exec r1 st k with
      | Some final => Some final
      | None => exec r2 st k
      end
  | Opt r =>
      match exec r st k with
      | Some final => Some final
      | None => k st
      end
  | Group i r => exec r st (fun st' => k (capture i st st'))
  | Bol => if (pos st =? 0)%nat then k st else None
  end.

(** The match of [re] that starts at offset [at_], where the text goes on
    with [s]. *)
Definition matchAt (re : regex) (at_ : nat) (s : string) : option mstate :=
  exec re {| pos := at_; rest := s; caps := [] |} Some.

(** A replacement template: literal text and references [$i]. *)
Inductive piece : Type :=
| Lit (s : string)
| Ref (i : nat).

Fixpoint submatch (i : nat) (caps : list (nat * string)) : string :=
  match caps with
  | (j, s) :: caps' => if (i =? j)%nat then s else submatch i caps'
  | [] => ""
  end.

Fixpoint expand (template : list piece) (caps : list (nat * string)) : string :=
  match template with
  | Lit s :: t => s +:+ expand t caps
  | Ref i :: t => submatch i caps +:+ expand t caps
  | [] => ""
  end.

(** [Regexp.ReplaceAllString] for an expression that does not match the
    empty string (neither expression of diff.go does): from left to right,
    each match is replaced by the expanded template and the search resumes
    after it; a character at which no match starts is copied.  [at_] is the
    offset of [src] in the text and [skip] the number of characters of the
    last match still to be passed over. *)
Fixpoint replaceFrom (re : regex) (template : list piece)
    (at_ skip : nat) (src : string) : string :=
  match skip with
  | S n =>
      match src with
      | String _ src' => replaceFrom re template (S at_) n src'
      | EmptyString => ""
      end
  | O =>
      match matchAt re at_ src with
      | Some final =>
          expand template (caps final) +:+
          match src with
          | String _ src' =>
              replaceFrom re template (S at_) (pos final - at_ - 1) src'
          | EmptyString => ""
          end
      | None =>
          match src with
          | String c src' => String c (replaceFrom re template (S at_) 0 src')
          | EmptyString => ""
          end
      end
  end.

Definition ReplaceAllString (re : regex) (src : string) (template : list piece)
    : string :=
  replaceFrom re template 0 0 src.

(** Character classes. *)
Definition LF : ascii := "010"%char.
Definition quote : ascii := "034"%char.

Definition inRange (lo hi c : ascii) : bool :=
  (nat_of_ascii lo <=? nat_of_ascii c)%nat && (nat_of_ascii c <=? nat_of_ascii hi)%nat.

(** [[[:alnum:]]] *)
Definition alnum (c : ascii) : bool :=
  inRange "0" "9" c || inRange "A" "Z" c || inRange "a" "z" c.

(** [[-._a-zA-Z0-9]] *)
Definition keyClass (c : ascii) : bool :=
  Ascii.eqb c "-" || Ascii.eqb c "." || Ascii.eqb c "_" ||
  inRange "a" "z" c || inRange "A" "Z" c || inRange "0" "9" c.

(** [[[:alnum:]=+]] *)
Definition valueClass (c : ascii) : bool :=
  alnum c || Ascii.eqb c "=" || Ascii.eqb c "+".

(** [\s], that is [[\t\n\f\r ]] *)
Definition spaceClass (c : ascii) : bool :=
  Ascii.eqb c "009" || Ascii.eqb c "010" || Ascii.eqb c "012" ||
  Ascii.eqb c "013" || Ascii.eqb c " ".

(** [.], any character but a newline *)
Definition dot (c : ascii) : bool := negb (Ascii.eqb c LF).

(** [var DiffLineStart = regexp.MustCompile("(^|\n)(.)")] *)
Definition DiffLineStart : regex :=
  Cat (Group 1 (Alt Bol (Byte LF))) (Group 2 (Class dot)).

(** [var DiffKeyValue =
      regexp.MustCompile(`"([-._a-zA-Z0-9]+)":\s"([[:alnum:]=+]+)",?`)] *)
Definition DiffKeyValue : regex :=
  Cat (Byte quote)
 (Cat (Group 1 (ClassPlus keyClass))
 (Cat (Byte quote)
 (Cat (Byte ":")
 (Cat (Class spaceClass)
 (Cat (Byte quote)
 (Cat (Group 2 (ClassPlus valueClass))
 (Cat (Byte quote)
      (Opt (Byte ",")))))))))%char.

(** ** Diff segments (diffmatchpatch.Diff) and the formatter *)

Inductive Operation : Type := DiffDelete | DiffInsert | DiffEqual.

Record Diff : Type := mkDiff { Type_ : Operation; Text : string }.

(** ANSI escape sequences: ["\x1b[32m"], ["\x1b[31m"] and ["\x1b[0m"]. *)
Definition ESC : ascii := "027"%char.
Definition green : string := String ESC "[32m".
Definition red : string := String ESC "[31m".
Definition reset : string := String ESC "[0m".

(** The loop body of formatDiff: what one segment appends to [buff]. *)
Definition formatStep (color omitchanges : bool) (buff : string) (diff : Diff)
    : string :=
  let text := Text diff in
  let text :=
    if omitchanges
    then ReplaceAllString DiffKeyValue text [Ref 1; Lit ": <omitted>"]
    else text in
  match Type_ diff with
  | DiffInsert =>
      let buff := if color then buff +:+ green else buff in
      let buff :=
        buff +:+ ReplaceAllString DiffLineStart text [Ref 1; Lit "+ "; Ref 2] in
      if color then buff +:+ reset else buff
  | DiffDelete =>
      let buff := if color then buff +:+ red else buff in
      let buff :=
        buff +:+ ReplaceAllString DiffLineStart text [Ref 1; Lit "- "; Ref 2] in
      if color then buff +:+ reset else buff
  | DiffEqual =>
      if negb omitchanges
      then buff +:+ ReplaceAllString DiffLineStart text [Ref 1; Lit "  "; Ref 2]
      else buff
  end.

Definition formatDiff (diffs : list Diff) (color omitchanges : bool) : string :=
  foldl (formatStep color omitchanges) "" diffs.

(** ** Texts as lines, and fragments of the ["key": "value"] shape *)

(** The lines of a text: the pieces between its newlines. *)
Fixpoint lines (s : string) : list string :=
  match s with
  | EmptyString => [""]
  | String c s' =>
      if Ascii.eqb c LF then "" :: lines s'
      else match lines s' with
           | l :: ls => String c l :: ls
           | [] => [String c ""]
           end
  end.

Fixpoint unlines (ls : list string) : string :=
  match ls with
  | [] => ""
  | [l] => l
  | l :: ls' => l +:+ String LF (unlines ls')
  end.

(** A line with its marker; an empty line is left empty. *)
Definition markLine (mark line : string) : string :=
  match line with
  | EmptyString => ""
  | _ => mark +:+ line
  end.

Fixpoint allChars (p : ascii -> bool) (s : string) : bool :=
  match s with
  | EmptyString => true
  | String c s' => p c && allChars p s'
  end.

Fixpoint takeWhile (p : ascii -> bool) (s : string) : string :=
  match s with
  | String c s' => if p c then String c (takeWhile p s') else ""
  | EmptyString => ""
  end.

Fixpoint dropWhile (p : ascii -> bool) (s : string) : string :=
  match s with
  | String c s' => if p c then dropWhile p s' else s
  | EmptyString => ""
  end.

(** A fragment of the shape [DiffKeyValue] describes: a quoted key of one
    or more key characters, a colon, one white-space character, a quoted
    value of one or more value characters, and a comma or nothing. *)
Definition keyValueFragment (key : string) (space : ascii) (val comma : string)
    : string :=
  String quote key +:+ String quote (String ":" (String space
    (String quote val))) +:+ String quote comma.

Definition keyValueShaped (key : string) (space : ascii) (val comma : string)
    : Prop :=
  key <> "" /\ allChars keyClass key = true /\
  spaceClass space = true /\
  val <> "" /\ allChars valueClass val = true /\
  (comma = "" \/ comma = ",").

(** [DiffKeyValue] read from left to right without backtracking: the key is
    the longest run of key characters after the opening quote, the value the
    longest run of value characters, and the comma is taken when there is
    one.  The result is the key, the white-space character, the value, the
    comma taken and the text after the match. *)
Definition keyValueMatch (s : string)
    : option (string * ascii * string * string * string) :=
  match s with
  | String q1 s1 =>
      if Ascii.eqb q1 quote then
        match takeWhile keyClass s1, dropWhile keyClass s1 with
        | String k0 key', String q2 (String co (String w (String q3 s3))) =>
            if Ascii.eqb q2 quote && Ascii.eqb co ":" && spaceClass w
               && Ascii.eqb q3 quote then
              match takeWhile valueClass s3, dropWhile valueClass s3 with
              | String v0 val', String q4 s5 =>
                  if Ascii.eqb q4 quote then
                    match s5 with
                    | String c s6 =>
                        if Ascii.eqb c ","
                        then Some (String k0 key', w, String v0 val', ",", s6)
                        else Some (String k0 key', w, String v0 val', "", s5)
                    | EmptyString =>
                        Some (String k0 key', w, String v0 val', "", "")
                    end
                  else None
              | _, _ => None
              end
            else None
        | _, _ => None
        end
      else None
  | EmptyString => None
  end.

(** The state in which a match of [DiffKeyValue] ends. *)
Definition keyValueFinal (at_ : nat)
    (m : string * ascii * string * string * string) : mstate :=
  let '(key, _, val, comma, tail) := m in
  {| pos := at_ + (String.length key + String.length val + String.length comma + 6);
     rest := tail;
     caps := [(2, val); (1, key)] |}.

(** The redaction step of formatDiff:
    [DiffKeyValue.ReplaceAllString(text, "$1: <omitted>")]. *)
Definition redact (text : string) : string :=
  ReplaceAllString DiffKeyValue text [Ref 1; Lit ": <omitted>"].

(** The marking step of formatDiff:
    [DiffLineStart.ReplaceAllString(text, "$1" + mark + "$2")]. *)
Definition markLineStarts (mark text : string) : string :=
  ReplaceAllString DiffLineStart text [Ref 1; Lit mark; Ref 2].

(** The closed form of a match of [DiffLineStart] at offset [at_]. *)
Definition lineStartMatch (at_ : nat) (s : string) : option mstate :=
  match s with
  | String c s' =>
      if (at_ =? 0)%nat && dot c then
        Some {| pos := at_ + 1; rest := s';
                caps := [(2, String c ""); (1, "")] |}
      else if Ascii.eqb c LF then
        match s' with
        | String d s'' =>
            if dot d then
              Some {| pos := at_ + 1 + 1; rest := s'';
                      caps := [(2, String d ""); (1, String LF "")] |}
            else None
        | EmptyString => None
        end
      else None
  | EmptyString => None
  end.

(** A text in which no quote occurs. *)
Definition noQuote (s : string) : bool :=
  allChars (fun c => negb (Ascii.eqb c quote)) s.

(** What the specification says one segment contributes to the output, with
    "line" read as "non-empty line": every non-empty line of an Insert or
    Delete segment gets its marker, after redaction when that is active and
    between the colour codes when colour is; an Equal segment gets two
    spaces per non-empty line, and nothing at all under redaction. *)
Definition colorize (color : bool) (code text : string) : string :=
  if color then code +:+ text +:+ reset else text.

Definition segmentSpec (color redaction : bool) (d : Diff) : string :=
  let shown := if redaction then redact (Text d) else Text d in
  match Type_ d with
  | DiffInsert => colorize color green (unlines (map (markLine "+ ") (lines shown)))
  | DiffDelete => colorize color red (unlines (map (markLine "- ") (lines shown)))
  | DiffEqual =>
      if redaction then ""
      else unlines (map (markLine "  ") (lines (Text d)))
  end.

Fixpoint concatAll (l : list string) : string :=
  match l with
  | [] => ""
  | s :: l' => s +:+ concatAll l'
  end.

(** Sample segments: a text with a blank line, and a secret whose value
    holds a slash. *)
Definition blankLineText : string :=
  "a" +:+ String LF (String LF ("b" +:+ String LF "")).
Definition everyLineMarked : string :=
  "+ a" +:+ String LF ("+ " +:+ String LF ("+ b" +:+ String LF "")).
Definition slashSecret : string :=
  keyValueFragment "password" " " "c2Vj/mV0" ",".

(** The lines of a text that goes on in the middle of a line: the first
    piece is the rest of that line and gets no marker. *)
Definition markRest (mark : string) (ls : list string) : string :=
  match ls with
  | l :: ls' => unlines (l :: map (markLine mark) ls')
  | [] => ""
  end.

(** A text in which every quote is escaped, that is, follows a backslash
    (as in the serialization of a string); [escaped] tells whether the
    character before the text is a backslash. *)
Definition backslash : ascii := "092"%char.

Fixpoint quotesEscaped (escaped : bool) (s : string) : bool :=
  match s with
  | EmptyString => true
  | String c s' =>
      (if Ascii.eqb c quote then escaped else true)
      && quotesEscaped (Ascii.eqb c backslash) s'
  end.

(** Where a fragment may end for the next character not to matter: at the
    end of the text or of the line. *)
Definition endsLine (tail : string) : bool :=
  match tail with
  | EmptyString => true
  | String c _ => Ascii.eqb c LF
  end.

(** Sample fragments: a secret whose value is plain base64, and one whose
    value holds an escaped quote. *)
Definition plainSecret : string :=
  keyValueFragment "password" " " "c2VjcmV0" ",".
Definition quotedValue : string :=
  String "a" (String backslash (String quote "b")).

(** ** The strategy dispatcher (diff.go, DiffCmd.Run)

    What [Run] calls outside diff.go is taken as given: the discovery and
    dynamic clients, the REST mapper, the helpers of package utils, [patch]
    and [isValidKindSchema] of update.go, encoding/json, go-diff and isatty.
    [World] gathers them, each field named after the call it stands for. *)

Inductive error : Type :=
| ErrDiffFound                                   (* var ErrDiffFound *)
| Errorf (msg : string)                          (* fmt.Errorf(...) *)
| External (notFound : bool) (msg : string).     (* an error of a collaborator *)

(** [err.Error()], as [%v] prints it. *)
Definition errorText (e : error) : string :=
  match e with
  | ErrDiffFound => "Differences found."
  | Errorf msg => msg
  | External _ msg => msg
  end.

(** [errors.IsNotFound(err)] *)
Definition IsNotFound (e : error) : bool :=
  match e with
  | External notFound _ => notFound
  | _ => false
  end.

(** A Go result [(value, error)]. *)
Inductive result (A : Type) : Type :=
| Ok (a : A)
| Err (e : error).
Arguments Ok {A} a.
Arguments Err {A} e.

(** [unstructured.Unstructured]: the document of a resource. *)
Record Unstructured : Type := mkUnstructured { Object : gmap string value }.

Record World (SchemaDoc Resources Schema : Type) : Type := mkWorld {
  (* sort.Sort(utils.AlphabeticalOrder(apiObjects)) *)
  AlphabeticalOrder : list Unstructured -> list Unstructured;
  (* c.Discovery.OpenAPISchema() *)
  OpenAPISchema : result SchemaDoc;
  (* openapi.NewOpenAPIData(schemaDoc) *)
  NewOpenAPIData : SchemaDoc -> result Resources;
  (* utils.ResourceNameFor(c.Mapper, obj) *)
  ResourceNameFor : Unstructured -> string;
  (* utils.FqName(obj) *)
  FqName : Unstructured -> string;
  (* utils.ClientForResource(c.Client, c.Mapper, obj, c.DefaultNamespace):
     the error, if any; the client itself is only used for [Get] *)
  ClientForResource : Unstructured -> option error;
  (* obj.GetName() *)
  GetName : Unstructured -> string;
  (* obj.GetKind() *)
  GetKind : Unstructured -> string;
  (* client.Get(obj.GetName(), metav1.GetOptions{}) *)
  Get : Unstructured -> option Unstructured * option error;
  (* schemaResources.LookupResource(obj.GroupVersionKind()); nil is None *)
  LookupResource : Resources -> Unstructured -> option Schema;
  (* isValidKindSchema(schema) *)
  isValidKindSchema : option Schema -> bool;
  (* patch(liveObj, obj, schema) *)
  patch : Unstructured -> Unstructured -> option Schema -> result Unstructured;
  (* obj.GetCreationTimestamp().IsZero() *)
  CreationTimestampIsZero : Unstructured -> bool;
  (* obj.SetCreationTimestamp(metav1.Time{}) *)
  ClearCreationTimestamp : Unstructured -> Unstructured;
  (* apiequality.Semantic.DeepEqual(a, b) *)
  SemanticDeepEqual : Unstructured -> Unstructured -> bool;
  (* utils.DeleteMetaDataAnnotation(obj, AnnotationOrigObject) *)
  DeleteOrigAnnotation : Unstructured -> Unstructured;
  (* json.MarshalIndent(v, "", "  "): the text, or None for an error *)
  MarshalIndent : gmap string value -> option string;
  (* dmp.DiffLinesToChars, dmp.DiffMain and dmp.DiffCharsToLines in a row *)
  diffLines : string -> string -> list Diff;
  (* isatty.IsTerminal(os.Stdout.Fd()) *)
  IsTerminal : bool
}.
Arguments AlphabeticalOrder {_ _ _} _ _.
Arguments OpenAPISchema {_ _ _} _.
Arguments NewOpenAPIData {_ _ _} _ _.
Arguments ResourceNameFor {_ _ _} _ _.
Arguments FqName {_ _ _} _ _.
Arguments ClientForResource {_ _ _} _ _.
Arguments GetName {_ _ _} _ _.
Arguments GetKind {_ _ _} _ _.
Arguments Get {_ _ _} _ _.
Arguments LookupResource {_ _ _} _ _ _.
Arguments isValidKindSchema {_ _ _} _ _.
Arguments patch {_ _ _} _ _ _ _.
Arguments CreationTimestampIsZero {_ _ _} _ _.
Arguments ClearCreationTimestamp {_ _ _} _ _.
Arguments SemanticDeepEqual {_ _ _} _ _ _.
Arguments DeleteOrigAnnotation {_ _ _} _ _.
Arguments MarshalIndent {_ _ _} _ _.
Arguments diffLines {_ _ _} _ _ _.
Arguments IsTerminal {_ _ _} _.

(** [DiffCmd], without the three clients that [World] stands for. *)
Record DiffCmd : Type := mkDiffCmd {
  DefaultNamespace : string;
  OmitSecrets : bool;
  DiffStrategy : string
}.

Definition nl : string := String LF "".

(** How one iteration of the loop of [Run] ends: it goes on to the next
    resource, [Run] returns, or a panic unwinds. *)
Inductive control : Type :=
| Continue (out : string) (diffFound : bool)
| Return (out : string) (err : option error)
| Unwind (out : string).

(** How [Run] ends, with the text written to [out] up to then. *)
Inductive ending : Type :=
| Returned (err : option error)
| Panicked.

Section Dispatcher.
Context {SchemaDoc Resources Schema : Type}.
Variable c : DiffCmd.
Variable w : World SchemaDoc Resources Schema.

(** [string(text)] for [text, _ := json.MarshalIndent(...)]: the error is
    dropped, and the text of a failed call is empty. *)
Definition marshalledText (doc : gmap string value) : string :=
  match MarshalIndent w doc with
  | Some text => text
  | None => ""
  end.

(** [(len(diff) == 1) && (diff[0].Type == diffmatchpatch.DiffEqual)] *)
Definition singleEqual (diff : list Diff) : bool :=
  match diff with
  | [d] => match Type_ d with DiffEqual => true | _ => false end
  | _ => false
  end.

(** Lines 124-141 and again lines 150-167: serialize the two documents,
    diff the texts and write either the "unchanged" line or the formatted
    diff.  The result is [out] and [diffFound] afterwards. *)
Definition compareDocuments (obj : Unstructured) (desc : string)
    (liveObjObject other : gmap string value)
    (out : string) (diffFound : bool) : string * bool :=
  let liveObjText := marshalledText liveObjObject in
  let objText := marshalledText other in
  let diff := diffLines w liveObjText objText in
  if singleEqual diff then
    (out +:+ desc +:+ " unchanged" +:+ nl, diffFound)
  else
    let text :=
      formatDiff diff (IsTerminal w)
        (OmitSecrets c && String.eqb (GetKind w obj) "Secret") in
    (out +:+ text +:+ nl, true).

(** The body of [for _, obj := range apiObjects]. *)
Definition processObject (schemaResources : Resources) (obj : Unstructured)
    (out : string) (diffFound : bool) : control :=
  let desc := ResourceNameFor w obj +:+ " " +:+ FqName w obj in
  match ClientForResource w obj with
  | Some err => Return out (Some err)
  | None =>
  if String.eqb (GetName w obj) "" then
    Return out (Some (Errorf ("Error fetching one of the " +:+
      ResourceNameFor w obj +:+ ": it does not have a name set")))
  else
  let '(liveObj, err) := Get w obj in
  let fetched :=
    match err with
    | Some e =>
        if IsNotFound e then Ok None
        else Err (Errorf ("Error fetching " +:+ desc +:+ ": " +:+ errorText e))
    | None => Ok liveObj
    end in
  match fetched with
  | Err e => Return out (Some e)
  | Ok liveObj =>
  let out := out +:+ "---" +:+ nl in
  let out := out +:+ "- live " +:+ desc +:+ nl +:+ "+ config " +:+ desc +:+ nl in
  match liveObj with
  | None => Continue (out +:+ desc +:+ " doesn't exist on server" +:+ nl) true
  | Some liveObj =>
  if String.eqb (DiffStrategy c) "update" then
    let schema := LookupResource w schemaResources obj in
    let schema := if isValidKindSchema w schema then schema else None in
    match patch w liveObj obj schema with
    | Err err => Return out (Some err)
    | Ok mergedObj =>
        let liveObj :=
          if CreationTimestampIsZero w mergedObj
          then ClearCreationTimestamp w liveObj else liveObj in
        if SemanticDeepEqual w liveObj mergedObj then Return out None
        else
          (* liveObjObject is liveObj.Object, the map the next call updates *)
          let liveObj := DeleteOrigAnnotation w liveObj in
          let mergedObj := DeleteOrigAnnotation w mergedObj in
          let '(out, _) :=
            compareDocuments obj desc (Object liveObj) (Object mergedObj)
              out diffFound in
          Return out None
    end
  else
    let reduced :=
      if String.eqb (DiffStrategy c) "subset"
      then removeMapFields (Object obj) (Object liveObj)
      else Ret (Object liveObj) in
    match reduced with
    | Panic => Unwind out
    | Ret liveObjObject =>
        let '(out, diffFound) :=
          compareDocuments obj desc liveObjObject (Object obj) out diffFound in
        Continue out diffFound
    end
  end
  end
  end.

(** The loop of [Run] and what follows it. *)
Fixpoint runLoop (schemaResources : Resources) (apiObjects : list Unstructured)
    (out : string) (diffFound : bool) : string * ending :=
  match apiObjects with
  | obj :: rest =>
      match processObject schemaResources obj out diffFound with
      | Continue out diffFound => runLoop schemaResources rest out diffFound
      | Return out err => (out, Returned err)
      | Unwind out => (out, Panicked)
      end
  | [] => (out, Returned (if diffFound then Some ErrDiffFound else None))
  end.

Definition Run (apiObjects : list Unstructured) : string * ending :=
  let apiObjects := AlphabeticalOrder w apiObjects in
  match OpenAPISchema w with
  | Err err => ("", Returned (Some err))
  | Ok schemaDoc =>
      match NewOpenAPIData w schemaDoc with
      | Err err => ("", Returned (Some err))
      | Ok schemaResources => runLoop schemaResources apiObjects "" false
      end
  end.
End Dispatcher.

(** ** Coverage of a desired document by a live one

    [covers live config]: the live value has everything the desired value
    asks for.  A mapping covers a mapping when each key of the desired one is
    either bound in the live one to a value that covers the desired value, or
    missing there while the desired value is empty; a list covers a list of
    the same length element by element; any other value is covered by itself
    only. *)

Inductive covers : value -> value -> Prop :=
| covers_map (live config : gmap string value) :
    (forall k v1 v2,
       config !! k = Some v1 -> live !! k = Some v2 -> covers v2 v1) ->
    (forall k v1,
       config !! k = Some v1 -> live !! k = None -> isEmptyValue v1 = Ret true) ->
    covers (VMap live) (VMap config)
| covers_list (live config : list value) :
    Forall2 covers live config ->
    covers (VList live) (VList config)
| covers_leaf (v : value) :
    (forall m, v <> VMap m) -> (forall l, v <> VList l) ->
    covers v v.

(** Sample documents: a desired document with an unset field and a nested
    mapping, a live document with the defaults a server adds, and a desired
    document holding a value of a type no decoder produces. *)
Definition desiredDoc : gmap string value :=
  <["replicas" := VInt 0]>
  (<["labels" := VMap (<["app" := VString "web"]> ∅)]>
  (<["ports" := VList [VInt 80]]> ∅)).
Definition liveDoc : gmap string value :=
  <["labels" := VMap (<["app" := VString "web"]> (<["rev" := VString "7"]> ∅))]>
  (<["ports" := VList [VInt 80]]>
  (<["uid" := VString "0a1b"]> ∅)).
Definition oddDoc : gmap string value :=
  <["timeout" := VOther "int32"]> (<["name" := VString "x"]> ∅).

(** ** Reading a formatted diff back

    Without colour and redaction every non-empty line of the formatter's
    output starts with a marker of two characters.  [stripMarkers] takes the
    first two characters off every line. *)

Definition unmarkLine (line : string) : string :=
  match line with
  | String _ (String _ l) => l
  | _ => ""
  end.

Definition stripMarkers (text : string) : string :=
  unlines (map unmarkLine (lines text)).

Fixpoint endsInLF (s : string) : bool :=
  match s with
  | EmptyString => false
  | String c EmptyString => Ascii.eqb c LF
  | String _ s' => endsInLF s'
  end.

(** A segment sequence as a line-mode diff produces it: every segment but
    the last ends at the end of a line. *)
Fixpoint lineAligned (diffs : list Diff) : bool :=
  match diffs with
  | d :: rest =>
      match rest with
      | [] => true
      | _ => endsInLF (Text d) && lineAligned rest
      end
  | [] => true
  end.

Definition noLF (s : string) : bool :=
  allChars (fun c => negb (Ascii.eqb c LF)) s.

Definition isEqual (d : Diff) : bool :=
  match Type_ d with
  | DiffEqual => true
  | _ => false
  end.

(** A sample line-mode diff of two serialized documents. *)
Definition sampleDiff : list Diff :=
  [ mkDiff DiffEqual ("{" +:+ String LF "");
    mkDiff DiffDelete ("  " +:+ keyValueFragment "k" " " "v1" "" +:+ String LF "");
    mkDiff DiffInsert ("  " +:+ keyValueFragment "k" " " "v2" "" +:+ String LF "");
    mkDiff DiffEqual "}" ].

(** The marker and the colour of each kind of segment. *)
Definition marker (op : Operation) : string :=
  match op with
  | DiffInsert => "+ "
  | DiffDelete => "- "
  | DiffEqual => "  "
  end.

Definition colorOf (op : Operation) : option string :=
  match op with
  | DiffInsert => Some green
  | DiffDelete => Some red
  | DiffEqual => None
  end.

Definition inColor (color : bool) (op : Operation) (text : string) : string :=
  match colorOf op with
  | Some code => if color then code +:+ text +:+ reset else text
  | None => text
  end.

(** A line of a serialized secret whose value holds a slash. *)
Definition slashLine : string :=
  "  " +:+ keyValueFragment "password" " " "c2Vj/mV0" "," +:+ String LF "".

(** ** What the dispatcher writes about a resource *)

Section Blocks.
Context {SchemaDoc Resources Schema : Type}.
Variable w : World SchemaDoc Resources Schema.

(** [desc] *)
Definition description (obj : Unstructured) : string :=
  ResourceNameFor w obj +:+ " " +:+ FqName w obj.

(** The three lines written before a resource is compared. *)
Definition header (obj : Unstructured) : string :=
  "---" +:+ nl +:+
  "- live " +:+ description obj +:+ nl +:+
  "+ config " +:+ description obj +:+ nl.

Definition unchangedBlock (obj : Unstructured) : string :=
  header obj +:+ description obj +:+ " unchanged" +:+ nl.

Definition absentBlock (obj : Unstructured) : string :=
  header obj +:+ description obj +:+ " doesn't exist on server" +:+ nl.

(** The schema handed to [patch]: nil when [isValidKindSchema] rejects it. *)
Definition validSchema (schemaResources : Resources) (obj : Unstructured)
    : option Schema :=
  let schema := LookupResource w schemaResources obj in
  if isValidKindSchema w schema then schema else None.

(** The places an error returned by [Run] for a resource comes from: the
    client factory, the missing name, the fetch, and [patch] under the
    update strategy. *)
Definition failureOf (c : DiffCmd) (obj : Unstructured) (e : error) : Prop :=
  ClientForResource w obj = Some e \/
  (GetName w obj = "" /\
   e = Errorf ("Error fetching one of the " +:+ ResourceNameFor w obj +:+
               ": it does not have a name set")) \/
  (exists liveObj cause,
     Get w obj = (liveObj, Some cause) /\ IsNotFound cause = false /\
     e = Errorf ("Error fetching " +:+ description obj +:+ ": " +:+
                 errorText cause)) \/
  (DiffStrategy c = "update" /\
   exists liveObj schema, patch w liveObj obj schema = Err e).

(** A resource the server has, in a state that covers the desired one, and
    on whose serialization the differencer answers with one Equal segment. *)
Definition coveredOnServer (obj : Unstructured) : Prop :=
  ClientForResource w obj = None /\ GetName w obj <> "" /\
  exists live,
    Get w obj = (Some live, None) /\
    covers (VMap (Object live)) (VMap (Object obj)) /\
    diffLines w (marshalledText w (Object obj)) (marshalledText w (Object obj)) =
      [mkDiff DiffEqual (marshalledText w (Object obj))].

(** A resource the server does not have. *)
Definition absentOnServer (obj : Unstructured) : Prop :=
  ClientForResource w obj = None /\ GetName w obj <> "" /\
  exists liveObj cause,
    Get w obj = (liveObj, Some cause) /\ IsNotFound cause = true.
End Blocks.

(** ** A sample world

    A server holding documents by name, a serializer for the documents of
    the samples, and a line differencer that takes the common first and last
    lines of two texts apart from what lies between them. *)

Fixpoint spaces (n : nat) : string :=
  match n with
  | O => ""
  | S n' => String " " (spaces n')
  end.

Fixpoint insertField (f : string * string) (l : list (string * string))
    : list (string * string) :=
  match l with
  | [] => [f]
  | g :: l' => if String.leb (fst f) (fst g) then f :: l else g :: insertField f l'
  end.

Fixpoint joinWith (sep : string) (l : list string) : string :=
  match l with
  | [] => ""
  | [s] => s
  | s :: l' => s +:+ sep +:+ joinWith sep l'
  end.

(** The serialization of a value at nesting depth [depth], two spaces per
    level, the keys of a mapping in order.  It knows strings (written without
    escapes), booleans, integers, nil, lists and mappings, and fails on
    anything else. *)
Fixpoint sampleMarshal (depth : nat) (v : value) : option string :=
  let inner := nl +:+ spaces (2 * S depth) in
  let outer := nl +:+ spaces (2 * depth) in
  match v with
  | VString s => Some (String quote s +:+ String quote "")
  | VBool b => Some (if b then "true" else "false")
  | VInt n => Some (pretty n)
  | VNil => Some "null"
  | VList l =>
      match mapM (sampleMarshal (S depth)) l with
      | Some [] => Some "[]"
      | Some items =>
          Some ("[" +:+ inner +:+ joinWith ("," +:+ inner) items +:+ outer +:+ "]")
      | None => None
      end
  | VMap m =>
      match map_fold (fun k x acc =>
              fields ← acc;
              text ← sampleMarshal (S depth) x;
              Some (insertField (k, text) fields)) (Some []) m with
      | Some [] => Some "{}"
      | Some fields =>
          Some ("{" +:+ inner +:+
                joinWith ("," +:+ inner)
                  (map (fun f => String quote (fst f) +:+ String quote ": " +:+ snd f)
                       fields) +:+
                outer +:+ "}")
      | None => None
      end
  | _ => None
  end.

(** The lines of a text, each with its newline. *)
Fixpoint splitLines (s : string) : list string :=
  match s with
  | EmptyString => []
  | String c s' =>
      if Ascii.eqb c LF then String c "" :: splitLines s'
      else match splitLines s' with
           | l :: ls => String c l :: ls
           | [] => [String c ""]
           end
  end.

Fixpoint commonPrefix (a b : list string)
    : list string * (list string * list string) :=
  match a, b with
  | x :: a', y :: b' =>
      if String.eqb x y then
        let '(common, rests) := commonPrefix a' b' in (x :: common, rests)
      else ([], (a, b))
  | _, _ => ([], (a, b))
  end.

Definition segment (op : Operation) (ls : list string) : list Diff :=
  match ls with
  | [] => []
  | _ => [mkDiff op (concatAll ls)]
  end.

Definition sampleDiffLines (text1 text2 : string) : list Diff :=
  let '(first, (rest1, rest2)) := commonPrefix (splitLines text1) (splitLines text2) in
  let '(last, (mid1, mid2)) := commonPrefix (rev rest1) (rev rest2) in
  segment DiffEqual first ++ segment DiffDelete (rev mid1) ++
  segment DiffInsert (rev mid2) ++ segment DiffEqual (rev last).

Definition stringAt (m : gmap string value) (k : string) : string :=
  match m !! k with
  | Some (VString s) => s
  | _ => ""
  end.

Definition sampleName (obj : Unstructured) : string :=
  match Object obj !! "metadata" with
  | Some (VMap metadata) => stringAt metadata "name"
  | _ => ""
  end.

Fixpoint insertByName (obj : Unstructured) (l : list Unstructured)
    : list Unstructured :=
  match l with
  | [] => [obj]
  | o :: l' =>
      if String.leb (sampleName obj) (sampleName o) then obj :: l
      else o :: insertByName obj l'
  end.

Definition sampleText (obj : Unstructured) : string :=
  match sampleMarshal 0 (VMap (Object obj)) with
  | Some text => text
  | None => ""
  end.

Definition sampleWorld (server : gmap string (gmap string value))
    : World unit unit unit := {|
  AlphabeticalOrder := foldr insertByName [];
  OpenAPISchema := Ok tt;
  NewOpenAPIData := fun _ => Ok tt;
  ResourceNameFor := fun obj => stringAt (Object obj) "kind";
  FqName := sampleName;
  ClientForResource := fun _ => None;
  GetName := sampleName;
  GetKind := fun obj => stringAt (Object obj) "kind";
  Get := fun obj =>
    match server !! sampleName obj with
    | Some doc => (Some (mkUnstructured doc), None)
    | None => (None, Some (External true "not found"))
    end;
  LookupResource := fun _ _ => None;
  isValidKindSchema := fun _ => false;
  patch := fun liveObj obj _ => Ok (mkUnstructured (Object obj ∪ Object liveObj));
  CreationTimestampIsZero := fun _ => false;
  ClearCreationTimestamp := fun obj => obj;
  SemanticDeepEqual := fun a b => String.eqb (sampleText a) (sampleText b);
  DeleteOrigAnnotation := fun obj => obj;
  MarshalIndent := fun doc => sampleMarshal 0 (VMap doc);
  diffLines := sampleDiffLines;
  IsTerminal := false
|}.

(** Sample resources and servers. *)
Definition configMap (name : string) (data : gmap string value) : Unstructured :=
  mkUnstructured
    (<["kind" := VString "ConfigMap"]>
    (<["metadata" := VMap (<["name" := VString name]> ∅)]>
    (<["data" := VMap data]> ∅))).

Definition desiredA : Unstructured := configMap "a" (<["k" := VString "v"]> ∅).
Definition desiredB : Unstructured := configMap "b" (<["k" := VString "v"]> ∅).
Definition liveA : gmap string value :=
  <["status" := VString "ok"]> (Object desiredA).
Definition liveB : gmap string value :=
  Object (configMap "b" (<["k" := VString "old"]> ∅)).
Definition oddC : Unstructured :=
  mkUnstructured (<["timeout" := VOther "int32"]> (Object (configMap "c" ∅))).

Definition nameless : Unstructured :=
  mkUnstructured (<["kind" := VString "ConfigMap"]> ∅).

Definition emptyServer : gmap string (gmap string value) := ∅.
Definition sampleServer : gmap string (gmap string value) :=
  <["a" := liveA]> (<["b" := liveB]> (<["c" := Object (configMap "c" ∅)]> ∅)).

Definition strictCmd : DiffCmd := mkDiffCmd "default" false "all".
Definition subsetCmd : DiffCmd := mkDiffCmd "default" false "subset".
Definition updateCmd : DiffCmd := mkDiffCmd "default" false "update".

(** * Properties *)

(** ** Induction on values *)

Lemma value_size_elem (l : list value) (x : value) :
  x ∈ l -> value_size x < value_size (VList l).
Proof.
  simpl. induction 1 as [x l|x y l _ IH]; simpl in *; lia.
Qed.

Lemma value_size_lookup (m : gmap string value) (k : string) (x : value) :
  m !! k = Some x -> value_size x < value_size (VMap m).
Proof.
  intros Hk. simpl.
  rewrite (map_fold_delete_L _ _ k x m); [lia| |done].
  intros; lia.
Qed.

Lemma value_nested_ind (P : value -> Prop) :
  (forall l, Forall P l -> P (VList l)) ->
  (forall m, map_Forall (fun _ x => P x) m -> P (VMap m)) ->
  (forall v, (forall l, v <> VList l) -> (forall m, v <> VMap m) -> P v) ->
  forall v, P v.
Proof.
  intros Hlist Hmap Hleaf v.
  remember (value_size v) as n eqn:Hn.
  revert v Hn. induction n as [n IH] using lt_wf_ind. intros v ->.
  destruct v as [l| |m| | | | | |];
    try (apply Hleaf; intros; discriminate).
  - apply Hlist, Forall_forall. intros x Hx.
    eapply IH; [|reflexivity]. by apply value_size_elem.
  - apply Hmap. intros k x Hk.
    eapply IH; [|reflexivity]. by eapply value_size_lookup.
Qed.

Lemma decoded_lookup (m : gmap string value) (k : string) (x : value) :
  decoded (VMap m) = true -> m !! k = Some x -> decoded x = true.
Proof.
  intros Hm Hk. simpl in Hm.
  rewrite (map_fold_delete_L _ _ k x m) in Hm; [| |done].
  - by apply andb_true_iff in Hm as [? _].
  - intros. by rewrite !andb_assoc, (andb_comm (decoded z1)).
Qed.

Lemma decoded_elem (l : list value) (x : value) :
  decoded (VList l) = true -> x ∈ l -> decoded x = true.
Proof.
  simpl. rewrite forallb_forall. intros Hl Hx. by apply Hl, list_elem_of_In.
Qed.

(** ** The emptiness predicate *)

Lemma SFeqb_zero (f : spec_float) :
  SFeqb f (S754_zero false) = true <-> exists sign, f = S754_zero sign.
Proof.
  split.
  - destruct f as [sign|sign| |sign m e]; try (by eauto); try discriminate;
      destruct sign; discriminate.
  - by intros [sign ->].
Qed.

Lemma isEmptyValue_zero (v : value) (b : bool) :
  isEmptyValue v = Ret b -> (b = true <-> zeroValue v).
Proof.
  destruct v as [l|l|m|c|f|n|s| |ty]; simpl; intros [= <-].
  - destruct l; simpl; split; try done; [constructor|inversion 1].
  - destruct l; simpl; split; try done; [constructor|inversion 1].
  - rewrite Nat.eqb_eq, map_size_empty_iff. split.
    + intros ->. constructor.
    + by inversion 1.
  - destruct c; simpl; split; try done; [inversion 1|constructor].
  - rewrite SFeqb_zero. split.
    + intros [sign ->]. constructor.
    + inversion 1. eauto.
  - rewrite Z.eqb_eq. split.
    + intros ->. constructor.
    + by inversion 1.
  - rewrite String.eqb_eq. split.
    + intros ->. constructor.
    + by inversion 1.
  - split; [constructor|done].
Qed.

Lemma isEmptyValue_decoded (v : value) :
  decoded v = true -> exists b, isEmptyValue v = Ret b.
Proof. destruct v; simpl; eauto. discriminate. Qed.

(** C7: on a value of the closed set (list, mapping, string, boolean,
    number, nil) the emptiness predicate returns, and it returns true exactly
    when the value is the zero value of its kind; on a value of any other
    type it panics. *)
Theorem isEmptyValue_closed_set (v : value) :
  (closedKind v ->
     exists b, isEmptyValue v = Ret b /\ (b = true <-> zeroValue v)) /\
  (~ closedKind v -> isEmptyValue v = Panic).
Proof.
  split.
  - intros Hv.
    assert (exists b, isEmptyValue v = Ret b) as [b Hb]
      by (destruct v; simpl; eauto; destruct Hv).
    exists b. split; [done|]. by apply isEmptyValue_zero.
  - destruct v; simpl; try (intros []; exact I). done.
Qed.

Lemma isEmptyValue_closed_set_witness :
  (exists b, isEmptyValue (VFloat (S754_zero true)) = Ret b /\
             (b = true <-> zeroValue (VFloat (S754_zero true)))) /\
  isEmptyValue (VOther "int32") = Panic.
Proof.
  split.
  - apply (isEmptyValue_closed_set (VFloat (S754_zero true))). simpl. exact I.
  - apply (isEmptyValue_closed_set (VOther "int32")). simpl. intros [].
Defined.

(** ** The map loop *)

Section MapLoop.
Variable recurse : value -> value -> outcome value.
Variable live : gmap string value.

Lemma mapFieldStep_fieldResult k v1 result :
  result !! k = None ->
  mapFieldStep recurse live k v1 (Ret result) =
    o ← fieldResult recurse live k v1;
    Ret (match o with Some r => <[k := r]> result | None => result end).
Proof.
  intros _. unfold mapFieldStep, fieldResult. simpl.
  destruct (live !! k) as [v2|]; simpl.
  - by destruct (recurse v1 v2).
  - destruct (isEmptyValue v1) as [[]|]; done.
Qed.

Local Abbreviation fieldResult := (fieldResult recurse live).
Local Abbreviation fieldsOf := (fieldsOf recurse live).

Lemma mapFieldsLoop_inv config :
  match mapFieldsLoop recurse config live with
  | Ret result => fieldsOf config result
  | Panic => exists k v1, config !! k = Some v1 /\ fieldResult k v1 = Panic
  end.
Proof.
  unfold mapFieldsLoop.
  apply (map_fold_weak_ind (fun acc config =>
    match acc with
    | Ret result => fieldsOf config result
    | Panic => exists k v1, config !! k = Some v1 /\ fieldResult k v1 = Panic
    end)).
  - intros k. by rewrite !lookup_empty.
  - intros i x m [result|] Hi IH.
    + assert (result !! i = None) as Hri.
      { specialize (IH i). by rewrite Hi in IH. }
      rewrite mapFieldStep_fieldResult by done.
      destruct (fieldResult i x) as [o|] eqn:Ho; simpl.
      * intros k. destruct (decide (i = k)) as [<-|Hne].
        -- rewrite lookup_insert_eq, Ho. f_equal.
           destruct o; [by rewrite lookup_insert_eq|done].
        -- rewrite lookup_insert_ne by done. specialize (IH k).
           destruct o; [by rewrite lookup_insert_ne|done].
      * exists i, x. by rewrite lookup_insert_eq.
    + destruct IH as (k & v1 & Hk & Hp). exists k, v1. split; [|done].
      rewrite lookup_insert_ne; [done|]. intros ->. congruence.
Qed.

Lemma mapFieldsLoop_Ret config result :
  mapFieldsLoop recurse config live = Ret result <-> fieldsOf config result.
Proof.
  pose proof (mapFieldsLoop_inv config) as H. split.
  - intros Heq. by rewrite Heq in H.
  - intros Hres. destruct (mapFieldsLoop recurse config live) as [r|].
    + f_equal. apply map_eq. intros k.
      specialize (H k). specialize (Hres k).
      destruct (config !! k); congruence.
    + destruct H as (k & v1 & Hk & Hp). specialize (Hres k).
      rewrite Hk in Hres. congruence.
Qed.

Lemma mapFieldsLoop_total config :
  (forall k v1, config !! k = Some v1 -> exists o, fieldResult k v1 = Ret o) ->
  exists result, mapFieldsLoop recurse config live = Ret result.
Proof.
  intros Htot. pose proof (mapFieldsLoop_inv config) as H.
  destruct (mapFieldsLoop recurse config live) as [r|]; [by eauto|].
  destruct H as (k & v1 & Hk & Hp).
  destruct (Htot k v1 Hk) as [o Ho]. congruence.
Qed.
End MapLoop.

(** ** The list loop *)

Section ListLoop.
Variable recurse : value -> value -> outcome value.

Local Abbreviation elementsOf := (elementsOf recurse).

Lemma foldl_snoc (live result : list value) :
  foldl (fun result v2 => result ++ [v2]) result live = result ++ live.
Proof.
  revert result. induction live as [|v2 live IH]; intros result; simpl.
  - by rewrite app_nil_r.
  - by rewrite IH, <- app_assoc.
Qed.

Lemma listFieldsLoop_inv config live result final :
  listFieldsLoop recurse config live result = Ret final ->
  exists appended, final = result ++ appended /\ elementsOf config live appended.
Proof.
  revert live result.
  induction config as [|c config IH]; intros live result; simpl.
  - rewrite foldl_snoc. intros [= <-]. exists live. split; [done|].
    split; [done|]. intros i v2 Hi. by rewrite lookup_nil.
  - destruct live as [|v2 live].
    + intros [= <-]. exists []. rewrite app_nil_r. split; [done|].
      split; [done|]. intros i v2. by rewrite lookup_nil.
    + destruct (recurse c v2) as [r|] eqn:Hr; simpl; [|done].
      intros Hloop. apply IH in Hloop as (appended & -> & Hlen & Hidx).
      exists (r :: appended). rewrite <- app_assoc. split; [done|].
      split; [simpl; by rewrite Hlen|].
      intros [|i] w; simpl.
      * intros [= <-]. eauto.
      * apply Hidx.
Qed.

Lemma listFieldsLoop_total config live result :
  Forall (fun c => forall v2, exists r, recurse c v2 = Ret r) config ->
  exists final, listFieldsLoop recurse config live result = Ret final.
Proof.
  intros Hall. revert live result.
  induction Hall as [|c config Hc _ IH]; intros live result; simpl; [by eauto|].
  destruct live as [|v2 live]; [by eauto|].
  destruct (Hc v2) as [r ->]. simpl. apply IH.
Qed.

Lemma listFieldsLoop_same (l result : list value) :
  Forall (fun v => recurse v v = Ret v) l ->
  listFieldsLoop recurse l l result = Ret (result ++ l).
Proof.
  intros Hall. revert result.
  induction Hall as [|v l Hv _ IH]; intros result; simpl.
  - by rewrite app_nil_r.
  - rewrite Hv. simpl. by rewrite IH, <- app_assoc.
Qed.
End ListLoop.

(** ** The reducer on documents *)

Lemma removeFields_map (c live : gmap string value) :
  removeFields (VMap c) (VMap live) = VMap <$> removeMapFields c live.
Proof. reflexivity. Qed.

Lemma removeFields_list (c live : list value) :
  removeFields (VList c) (VList live) = VList <$> removeListFields c live.
Proof. reflexivity. Qed.

(** On a decoded desired document the reducer never panics. *)
Lemma removeFields_total (config : value) :
  decoded config = true -> forall live, exists r, removeFields config live = Ret r.
Proof.
  induction config as [l IH|m IH|v Hl Hm] using value_nested_ind; intros Hdec live.
  - destruct live as [ll| | | | | | | |]; try (simpl; by eauto).
    rewrite removeFields_list. unfold removeListFields.
    destruct (listFieldsLoop_total removeFields l ll []) as [final ->]; [|by eauto].
    rewrite Forall_forall in IH |- *. intros c Hc v2.
    apply IH; [done|]. by eapply decoded_elem.
  - destruct live as [| |lm| | | | | |]; try (simpl; by eauto).
    rewrite removeFields_map. unfold removeMapFields.
    destruct (mapFieldsLoop_total removeFields lm m) as [result ->]; [|by eauto].
    intros k v1 Hk. unfold fieldResult.
    assert (decoded v1 = true) as Hv1 by (by eapply decoded_lookup).
    destruct (lm !! k) as [v2|].
    + destruct (IH k v1 Hk Hv1 v2) as [r ->]. by eauto.
    + destruct (isEmptyValue_decoded v1 Hv1) as [b ->]. by eauto.
  - destruct v; simpl; try (by eauto).
    + by destruct (Hl v).
    + by destruct (Hm v).
Qed.

(** C1: the map reduction of a desired mapping [D] (a decoded document)
    against a live mapping [L] returns a mapping [R] such that a key of [D]
    present in [L] is bound to the reduction of the two values, a key of [D]
    absent from [L] is bound to [D]'s value exactly when that value is empty
    and is left out otherwise, and no other key is bound: the keys of [R]
    are keys of [D], and a key present only in [L] is not in [R]. *)
Theorem removeMapFields_spec (D L : gmap string value) :
  decoded (VMap D) = true ->
  exists R, removeMapFields D L = Ret R /\
    (forall k v1 v2, D !! k = Some v1 -> L !! k = Some v2 ->
       exists r, removeFields v1 v2 = Ret r /\ R !! k = Some r) /\
    (forall k v1, D !! k = Some v1 -> L !! k = None ->
       exists empty, isEmptyValue v1 = Ret empty /\
         R !! k = if empty then Some v1 else None) /\
    (forall k, D !! k = None -> R !! k = None) /\
    dom R ⊆ dom D.
Proof.
  intros Hdec.
  destruct (removeFields_total (VMap D) Hdec (VMap L)) as [r Hr].
  rewrite removeFields_map in Hr.
  destruct (removeMapFields D L) as [R|] eqn:HR; [|discriminate].
  exists R. split; [done|].
  apply mapFieldsLoop_Ret in HR.
  assert (forall k, D !! k = None -> R !! k = None) as Hnone.
  { intros k Hk. specialize (HR k). by rewrite Hk in HR. }
  repeat split.
  - intros k v1 v2 Hk HL. specialize (HR k).
    rewrite Hk in HR. unfold fieldResult in HR. rewrite HL in HR.
    destruct (removeFields v1 v2) as [r'|]; [|discriminate].
    exists r'. split; [done|]. simpl in HR. congruence.
  - intros k v1 Hk HL. specialize (HR k).
    rewrite Hk in HR. unfold fieldResult in HR. rewrite HL in HR.
    destruct (isEmptyValue v1) as [empty|]; [|discriminate].
    exists empty. split; [done|]. simpl in HR. congruence.
  - done.
  - intros k. rewrite !elem_of_dom. intros [x Hx].
    destruct (D !! k) eqn:Hk; [by eauto|].
    rewrite (Hnone k Hk) in Hx. discriminate.
Qed.

Lemma removeMapFields_spec_witness :
  exists R, removeMapFields desiredMap liveMap = Ret R /\
    (forall k v1 v2, desiredMap !! k = Some v1 -> liveMap !! k = Some v2 ->
       exists r, removeFields v1 v2 = Ret r /\ R !! k = Some r) /\
    (forall k v1, desiredMap !! k = Some v1 -> liveMap !! k = None ->
       exists empty, isEmptyValue v1 = Ret empty /\
         R !! k = if empty then Some v1 else None) /\
    (forall k, desiredMap !! k = None -> R !! k = None) /\
    dom R ⊆ dom desiredMap.
Proof. apply (removeMapFields_spec desiredMap liveMap). reflexivity. Defined.

(** C2: the list reduction of a desired list [D] (of decoded documents)
    against a live list [L] returns a list of the length of [L] whose
    element [i] is the reduction of [(D[i], L[i])] when [i] is within range
    of [D] and is [L[i]] itself when [i] is at or beyond the length of [D]. *)
Theorem removeListFields_spec (D L : list value) :
  decoded (VList D) = true ->
  exists R, removeListFields D L = Ret R /\
    length R = length L /\
    forall i v2, L !! i = Some v2 ->
      (forall c, D !! i = Some c ->
         exists r, removeFields c v2 = Ret r /\ R !! i = Some r) /\
      (length D <= i -> R !! i = Some v2).
Proof.
  intros Hdec.
  destruct (removeFields_total (VList D) Hdec (VList L)) as [r Hr].
  rewrite removeFields_list in Hr.
  destruct (removeListFields D L) as [R|] eqn:HR; [|discriminate].
  exists R. split; [done|].
  apply listFieldsLoop_inv in HR as (appended & -> & Hlen & Hidx).
  simpl. split; [done|].
  intros i v2 Hi. specialize (Hidx i v2 Hi). split.
  - intros c Hc. by rewrite Hc in Hidx.
  - intros Hge. by rewrite (lookup_ge_None_2 D i Hge) in Hidx.
Qed.

Lemma removeListFields_spec_witness :
  exists R, removeListFields [VInt 1] [VInt 1; VInt 2] = Ret R /\
    length R = length [VInt 1; VInt 2] /\
    forall i v2, [VInt 1; VInt 2] !! i = Some v2 ->
      (forall c, [VInt 1] !! i = Some c ->
         exists r, removeFields c v2 = Ret r /\ R !! i = Some r) /\
      (length [VInt 1] <= i -> R !! i = Some v2).
Proof. apply (removeListFields_spec [VInt 1] [VInt 1; VInt 2]). reflexivity. Defined.

Lemma removeFields_same (D : value) : removeFields D D = Ret D.
Proof.
  induction D as [l IH|m IH|v Hl Hm] using value_nested_ind.
  - rewrite removeFields_list. unfold removeListFields.
    by rewrite (listFieldsLoop_same removeFields l [] IH).
  - rewrite removeFields_map. unfold removeMapFields.
    assert (mapFieldsLoop removeFields m m = Ret m) as ->; [|done].
    apply mapFieldsLoop_Ret. intros k.
    destruct (m !! k) as [v1|] eqn:Hk; [|done].
    unfold fieldResult. rewrite Hk, (IH k v1 Hk). done.
  - destruct v; try reflexivity.
    + by destruct (Hl v).
    + by destruct (Hm v).
Qed.

(** C8: reducing a document against itself gives the document back,
    [reduce(D, D) = D].  It holds for every value, hence for every document
    without non-empty-but-server-omittable fields, and at each of the three
    entry points of the reducer. *)
Theorem reduce_self :
  (forall D : value, removeFields D D = Ret D) /\
  (forall D : gmap string value, removeMapFields D D = Ret D) /\
  (forall D : list value, removeListFields D D = Ret D).
Proof.
  split; [exact removeFields_same|]. split.
  - intros D. pose proof (removeFields_same (VMap D)) as H.
    rewrite removeFields_map in H.
    destruct (removeMapFields D D); simpl in H; congruence.
  - intros D. pose proof (removeFields_same (VList D)) as H.
    rewrite removeFields_list in H.
    destruct (removeListFields D D); simpl in H; congruence.
Qed.

(** ** Strings *)

Lemma string_app_assoc (a b c : string) : (a +:+ b) +:+ c = a +:+ (b +:+ c).
Proof. induction a as [|x a IH]; simpl; [done|by rewrite IH]. Qed.

Lemma string_app_nil_r (a : string) : a +:+ "" = a.
Proof. induction a as [|x a IH]; simpl; [done|by rewrite IH]. Qed.

Lemma string_length_app (a b : string) :
  String.length (a +:+ b) = String.length a + String.length b.
Proof. induction a as [|x a IH]; simpl; [done|by rewrite IH]. Qed.

Lemma substring_prefix (a b : string) :
  substring 0 (String.length a) (a +:+ b) = a.
Proof.
  induction a as [|x a IH]; simpl; [by destruct b|congruence].
Qed.

Lemma takeWhile_dropWhile (p : ascii -> bool) (s : string) :
  takeWhile p s +:+ dropWhile p s = s.
Proof.
  induction s as [|c s IH]; simpl; [done|].
  destruct (p c); simpl; congruence.
Qed.

Lemma takeWhile_all (p : ascii -> bool) (s : string) :
  allChars p (takeWhile p s) = true.
Proof.
  induction s as [|c s IH]; simpl; [done|].
  destruct (p c) eqn:Hc; simpl; [by rewrite Hc|done].
Qed.

Lemma takeWhile_app (p : ascii -> bool) (a b : string) :
  allChars p a = true ->
  takeWhile p (a +:+ b) = a +:+ takeWhile p b /\
  dropWhile p (a +:+ b) = dropWhile p b.
Proof.
  induction a as [|x a IH]; simpl; [done|].
  intros [Hx Ha]%andb_true_iff. rewrite Hx.
  destruct (IH Ha) as [-> ->]. done.
Qed.

Lemma dropWhile_head (p : ascii -> bool) (s : string) (c : ascii) (s' : string) :
  dropWhile p s = String c s' -> p c = false.
Proof.
  induction s as [|x s IH]; simpl; [done|].
  destruct (p x) eqn:Hx; [done|]. intros [= <- <-]. done.
Qed.

(** ** The regular expressions *)

(** A greedy run followed by something that cannot start with a character
    of the class does not backtrack: it takes the longest run. *)
Lemma plusLoop_greedy {R : Type} (p : ascii -> bool) (s : string) (n : nat)
    (k : nat -> string -> option R) :
  (forall m c s', p c = true -> k m (String c s') = None) ->
  plusLoop p s n k =
    match takeWhile p s with
    | EmptyString => None
    | run => k (n + String.length run) (dropWhile p s)
    end.
Proof.
  intros Hk. revert n. induction s as [|c s IH]; intros n; simpl; [done|].
  destruct (p c) eqn:Hc; [|done].
  rewrite IH. simpl.
  destruct (takeWhile p s) as [|d run] eqn:Hrun.
  - destruct s as [|d s]; simpl in *.
    + f_equal. lia.
    + destruct (p d); [done|]. f_equal. lia.
  - simpl. replace (n + S (S (String.length run)))
      with (S (n + S (String.length run))) by lia.
    destruct (k (S (n + S (String.length run))) (dropWhile p s)) eqn:Hres;
      [done|].
    destruct s as [|e s]; simpl in Hrun; [done|].
    destruct (p e) eqn:He; [|done]. by apply Hk.
Qed.

Lemma keyClass_not_quote (c : ascii) : keyClass c = true -> Ascii.eqb c quote = false.
Proof.
  intros Hc. destruct (Ascii.eqb_spec c quote) as [->|]; [|done].
  vm_compute in Hc. discriminate.
Qed.

Lemma valueClass_not_quote (c : ascii) : valueClass c = true -> Ascii.eqb c quote = false.
Proof.
  intros Hc. destruct (Ascii.eqb_spec c quote) as [->|]; [|done].
  vm_compute in Hc. discriminate.
Qed.

(** [DiffKeyValue] is deterministic: the search of [exec] finds exactly the
    match [keyValueMatch] reads off. *)
Lemma matchAt_DiffKeyValue (at_ : nat) (s : string) :
  matchAt DiffKeyValue at_ s = keyValueFinal at_ <$> keyValueMatch s.
Proof.
  unfold matchAt, DiffKeyValue.
  destruct s as [|q1 s1]; simpl; [done|].
  destruct (Ascii.eqb q1 quote); [|done].
  rewrite plusLoop_greedy.
  2:{ intros m c s' Hc. simpl. by rewrite (keyClass_not_quote c Hc). }
  pose proof (takeWhile_dropWhile keyClass s1) as Hs1.
  destruct (takeWhile keyClass s1) as [|k0 key'] eqn:Hkey; [done|].
  destruct (dropWhile keyClass s1) as [|q2 s2] eqn:Hdrop; [done|].
  destruct (Ascii.eqb q2 quote);
    [|by destruct s2 as [|? [|? [|? ?]]]].
  destruct s2 as [|co s2]; [done|].
  destruct (Ascii.eqb co ":"); [|by destruct s2 as [|? [|? ?]]].
  destruct s2 as [|w s2]; [done|].
  destruct (spaceClass w); [|by destruct s2 as [|? ?]].
  destruct s2 as [|q3 s3]; [done|].
  destruct (Ascii.eqb q3 quote); [|done]. simpl.
  rewrite plusLoop_greedy.
  2:{ intros m c s' Hc. by rewrite (valueClass_not_quote c Hc). }
  pose proof (takeWhile_dropWhile valueClass s3) as Hs3.
  destruct (takeWhile valueClass s3) as [|v0 val'] eqn:Hval; [done|].
  destruct (dropWhile valueClass s3) as [|q4 s5] eqn:Hdrop3; [done|].
  destruct (Ascii.eqb q4 quote); [|done].
  assert (substring 0 (String.length (String k0 key')) s1 = String k0 key')
    as Hcap1 by (rewrite <- Hs1 at 1; apply substring_prefix).
  assert (substring 0 (String.length (String v0 val')) s3 = String v0 val')
    as Hcap2 by (rewrite <- Hs3 at 1; apply substring_prefix).
  destruct s5 as [|c s6]; [|destruct (Ascii.eqb c ",")]; simpl;
    unfold advance, capture; simpl;
    match goal with
    | |- context [substring 0 ?n s3] =>
        replace n with (String.length (String v0 val')) by (simpl; lia)
    end;
    match goal with
    | |- context [substring 0 ?n s1] =>
        replace n with (String.length (String k0 key')) by (simpl; lia)
    end;
    rewrite Hcap1, Hcap2; do 2 f_equal; lia.
Qed.

(** *** The shape of a match of [DiffKeyValue] *)

Lemma keyValueMatch_not_quote (c : ascii) (s : string) :
  Ascii.eqb c quote = false -> keyValueMatch (String c s) = None.
Proof. intros Hc. simpl. by rewrite Hc. Qed.

Lemma keyValueFragment_app (key : string) (w : ascii) (val comma tail : string) :
  keyValueFragment key w val comma +:+ tail =
    String quote (key +:+ String quote (String ":" (String w (String quote
      (val +:+ String quote (comma +:+ tail)))))).
Proof.
  unfold keyValueFragment. simpl. rewrite !string_app_assoc. simpl.
  by rewrite !string_app_assoc.
Qed.

Lemma keyValueMatch_sound (s key : string) (w : ascii) (val comma tail : string) :
  keyValueMatch s = Some (key, w, val, comma, tail) ->
  s = keyValueFragment key w val comma +:+ tail /\
  keyValueShaped key w val comma.
Proof.
  unfold keyValueMatch.
  destruct s as [|q1 s1]; [done|].
  destruct (Ascii.eqb_spec q1 quote) as [->|]; [|done].
  pose proof (takeWhile_dropWhile keyClass s1) as Hs1.
  pose proof (takeWhile_all keyClass s1) as Hk.
  destruct (takeWhile keyClass s1) as [|k0 key'] eqn:Hkey; [done|].
  destruct (dropWhile keyClass s1) as [|q2 [|co [|w' [|q3 s3]]]]; try done.
  destruct (Ascii.eqb_spec q2 quote) as [->|]; [|done].
  destruct (Ascii.eqb_spec co ":") as [->|]; [|done].
  destruct (spaceClass w') eqn:Hw; [|done].
  destruct (Ascii.eqb_spec q3 quote) as [->|]; [|done]. simpl.
  pose proof (takeWhile_dropWhile valueClass s3) as Hs3.
  pose proof (takeWhile_all valueClass s3) as Hv.
  destruct (takeWhile valueClass s3) as [|v0 val'] eqn:Hval; [done|].
  destruct (dropWhile valueClass s3) as [|q4 s5]; [done|].
  destruct (Ascii.eqb_spec q4 quote) as [->|]; [|done].
  assert (forall comma' tail', s5 = comma' +:+ tail' ->
            comma' = "" \/ comma' = "," ->
    Some (String k0 key', w', String v0 val', comma', tail') =
      Some (key, w, val, comma, tail) ->
    String quote s1 = keyValueFragment key w val comma +:+ tail /\
    keyValueShaped key w val comma) as Hgoal.
  { intros comma' tail' -> Hcomma [= <- <- <- <- <-]. split.
    - rewrite keyValueFragment_app, <- Hs1, <- Hs3. done.
    - repeat split; done. }
  destruct s5 as [|c s6].
  - apply (Hgoal "" ""); auto.
  - destruct (Ascii.eqb_spec c ",") as [->|].
    + apply (Hgoal "," s6); auto.
    + apply (Hgoal "" (String c s6)); auto.
Qed.

Lemma keyValueMatch_complete (key : string) (w : ascii) (val comma tail : string) :
  keyValueShaped key w val comma ->
  (comma = "" -> forall t, tail <> String "," t) ->
  keyValueMatch (keyValueFragment key w val comma +:+ tail) =
    Some (key, w, val, comma, tail).
Proof.
  intros (Hk0 & Hk & Hw & Hv0 & Hv & Hcomma) Htail.
  rewrite keyValueFragment_app. unfold keyValueMatch.
  change (Ascii.eqb quote quote) with true. cbv iota.
  destruct (takeWhile_app keyClass key
    (String quote (String ":" (String w (String quote
       (val +:+ String quote (comma +:+ tail)))))) Hk) as [-> ->].
  simpl. rewrite string_app_nil_r.
  destruct key as [|k0 key']; [done|]. rewrite Hw. simpl.
  destruct (takeWhile_app valueClass val (String quote (comma +:+ tail)) Hv)
    as [-> ->].
  simpl. rewrite string_app_nil_r.
  destruct val as [|v0 val']; [done|].
  destruct Hcomma as [-> | ->]; simpl; [|done].
  destruct tail as [|c t]; [done|].
  destruct (Ascii.eqb_spec c ",") as [->|]; [|done].
  by destruct (Htail eq_refl t).
Qed.

(** *** Replacing from left to right *)

Lemma replaceFrom_skip (re : regex) (template : list piece) (a b : string)
    (at_ : nat) :
  replaceFrom re template at_ (String.length a) (a +:+ b) =
    replaceFrom re template (at_ + String.length a) 0 b.
Proof.
  revert at_. induction a as [|c a IH]; intros at_; simpl.
  - by rewrite Nat.add_0_r.
  - rewrite IH. f_equal. lia.
Qed.

(** *** Redaction *)

Lemma replaceFrom_DiffKeyValue_offset (template : list piece) (s : string)
    (at1 at2 skip : nat) :
  replaceFrom DiffKeyValue template at1 skip s =
    replaceFrom DiffKeyValue template at2 skip s.
Proof.
  revert at1 at2 skip. induction s as [|c s IH]; intros at1 at2 [|n]; simpl;
    try done.
  rewrite !matchAt_DiffKeyValue.
  destruct (keyValueMatch (String c s)) as [[[[[key w] val] comma] tail]|];
    simpl.
  - f_equal. replace (at1 + _ - at1 - 1) with (at2
      + (String.length key + String.length val + String.length comma + 6)
      - at2 - 1) by lia.
    apply IH.
  - f_equal. apply IH.
Qed.

Lemma keyValueFragment_length (key : string) (w : ascii) (val comma : string) :
  String.length (keyValueFragment key w val comma) =
    String.length key + String.length val + String.length comma + 6.
Proof.
  unfold keyValueFragment. simpl.
  rewrite !string_length_app. simpl. rewrite !string_length_app. simpl. lia.
Qed.

Lemma redact_nil : redact "" = "".
Proof. reflexivity. Qed.

Lemma redact_copy (c : ascii) (s : string) :
  keyValueMatch (String c s) = None ->
  redact (String c s) = String c (redact s).
Proof.
  intros Hnone. unfold redact, ReplaceAllString. simpl.
  rewrite matchAt_DiffKeyValue, Hnone. simpl. f_equal.
  apply replaceFrom_DiffKeyValue_offset.
Qed.

Lemma redact_match (s key : string) (w : ascii) (val comma tail : string) :
  keyValueMatch s = Some (key, w, val, comma, tail) ->
  redact s = key +:+ ": <omitted>" +:+ redact tail.
Proof.
  intros Hm. destruct (keyValueMatch_sound _ _ _ _ _ _ Hm) as [Hs _].
  unfold redact, ReplaceAllString.
  pose proof (keyValueFragment_length key w val comma) as Hlen.
  destruct s as [|q s']; [done|].
  unfold replaceFrom at 1; fold replaceFrom.
  rewrite matchAt_DiffKeyValue, Hm. simpl.
  enough (replaceFrom DiffKeyValue [Ref 1; Lit ": <omitted>"] 1
            (String.length key + String.length val + String.length comma
             + 6 - 0 - 1) s' =
          replaceFrom DiffKeyValue [Ref 1; Lit ": <omitted>"] 0 0 tail) as ->
    by (by rewrite string_app_assoc).
  destruct (keyValueFragment key w val comma) as [|q' frag'] eqn:Hfrag;
    [done|].
  simpl in Hs, Hlen. injection Hs as -> ->.
  replace (String.length key + String.length val + String.length comma + 6 - 0 - 1)
    with (String.length frag') by lia.
  rewrite replaceFrom_skip. apply replaceFrom_DiffKeyValue_offset.
Qed.

Lemma redact_app_noQuote (a b : string) :
  noQuote a = true -> redact (a +:+ b) = a +:+ redact b.
Proof.
  induction a as [|c a IH]; simpl; [done|].
  intros [Hc Ha]%andb_true_iff. apply negb_true_iff in Hc.
  rewrite redact_copy by (by apply keyValueMatch_not_quote).
  by rewrite IH.
Qed.

(** *** Line starts *)

Lemma substring_0_0 (s : string) : substring 0 0 s = "".
Proof. by destruct s. Qed.

Lemma matchAt_DiffLineStart (at_ : nat) (s : string) :
  matchAt DiffLineStart at_ s = lineStartMatch at_ s.
Proof.
  unfold matchAt, DiffLineStart, lineStartMatch.
  destruct s as [|c s']; simpl.
  - by destruct (at_ =? 0)%nat.
  - unfold capture, advance; simpl.
    destruct (at_ =? 0)%nat eqn:Hat; simpl.
    + destruct (dot c) eqn:Hc; simpl.
      * rewrite Nat.sub_diag, Nat.add_comm, Nat.add_sub. simpl.
        by rewrite substring_0_0.
      * unfold dot in Hc. apply negb_false_iff in Hc. rewrite Hc.
        apply Ascii.eqb_eq in Hc as ->.
        destruct s' as [|d s'']; [done|].
        destruct (dot d); [|done].
        replace (at_ + 1 - at_) with 1 by lia.
        replace (at_ + 1 + 1 - (at_ + 1)) with 1 by lia.
        simpl. by rewrite !substring_0_0.
    + destruct (Ascii.eqb_spec c LF) as [->|]; [|done].
      destruct s' as [|d s'']; [done|].
      destruct (dot d); [|done].
      replace (at_ + 1 - at_) with 1 by lia.
      replace (at_ + 1 + 1 - (at_ + 1)) with 1 by lia.
      simpl. by rewrite !substring_0_0.
Qed.

Lemma lines_nonempty (s : string) : exists l ls, lines s = l :: ls.
Proof.
  induction s as [|c s (l & ls & IH)]; simpl; [by eauto|].
  destruct (Ascii.eqb c LF); [by eauto|]. rewrite IH. by eauto.
Qed.

Lemma unlines_cons (l : string) (ls : list string) :
  ls <> [] -> unlines (l :: ls) = l +:+ String LF (unlines ls).
Proof. by destruct ls. Qed.

Lemma unlines_String (c : ascii) (l : string) (ls : list string) :
  unlines (String c l :: ls) = String c (unlines (l :: ls)).
Proof. by destruct ls. Qed.

Lemma unlines_app (a l : string) (ls : list string) :
  unlines ((a +:+ l) :: ls) = a +:+ unlines (l :: ls).
Proof.
  induction a as [|c a IH]; [done|].
  change (String c a +:+ l) with (String c (a +:+ l)).
  by rewrite unlines_String, IH.
Qed.

(** After the beginning of the text a marker is put after every newline
    that a character other than a newline follows. *)
Lemma replaceFrom_DiffLineStart_rest (mark : string) (s : string) :
  forall at_, 0 < at_ ->
    replaceFrom DiffLineStart [Ref 1; Lit mark; Ref 2] at_ 0 s =
      markRest mark (lines s).
Proof.
  remember (String.length s) as n eqn:Hn. revert s Hn.
  induction n as [n IH] using lt_wf_ind. intros s -> at_ Hat.
  destruct s as [|c s'];
    [by unfold replaceFrom; rewrite matchAt_DiffLineStart|].
  unfold replaceFrom at 1; fold replaceFrom.
  rewrite matchAt_DiffLineStart. unfold lineStartMatch.
  replace (at_ =? 0)%nat with false by (symmetry; apply Nat.eqb_neq; lia).
  cbn [andb].
  destruct (lines_nonempty s') as (l' & ls' & Hl').
  pose proof (IH (String.length s') ltac:(simpl; lia) s' eq_refl (S at_)
    ltac:(lia)) as IHs'.
  rewrite Hl' in IHs'. simpl in IHs'.
  destruct (Ascii.eqb_spec c LF) as [->|Hc].
  - cbn [lines]. rewrite Ascii.eqb_refl, Hl'.
    destruct s' as [|d s''].
    + rewrite IHs'. simpl in Hl'. by injection Hl' as <- <-.
    + destruct (dot d) eqn:Hd.
      * cbn [caps pos expand submatch Nat.eqb].
        replace (at_ + 1 + 1 - at_ - 1) with 1 by lia.
        cbn [replaceFrom].
        destruct (lines_nonempty s'') as (l'' & ls'' & Hl'').
        rewrite (IH (String.length s'') ltac:(simpl; lia) s'' eq_refl
          (S (S at_)) ltac:(lia)), Hl''.
        simpl in Hl'. unfold dot in Hd. apply negb_true_iff in Hd.
        rewrite Hd, Hl'' in Hl'. injection Hl' as <- <-.
        unfold markRest. cbn [map markLine].
        rewrite (unlines_cons "") by done.
        rewrite unlines_app, unlines_String, !string_app_assoc.
        by simpl.
      * rewrite IHs'. simpl in Hl'. unfold dot in Hd.
        apply negb_false_iff in Hd. rewrite Hd in Hl'.
        injection Hl' as <- <-. done.
  - apply Ascii.eqb_neq in Hc. cbn [lines]. rewrite Hc, Hl', IHs'.
    unfold markRest. by rewrite unlines_String.
Qed.

(** [DiffLineStart] puts the marker in front of every non-empty line. *)
Lemma markLineStarts_lines (mark text : string) :
  markLineStarts mark text = unlines (map (markLine mark) (lines text)).
Proof.
  unfold markLineStarts, ReplaceAllString.
  destruct text as [|c s'];
    [by unfold replaceFrom; rewrite matchAt_DiffLineStart|].
  unfold replaceFrom at 1; fold replaceFrom.
  rewrite matchAt_DiffLineStart. unfold lineStartMatch.
  cbn [Nat.eqb andb].
  destruct (lines_nonempty s') as (l' & ls' & Hl').
  pose proof (replaceFrom_DiffLineStart_rest mark s' 1 ltac:(lia)) as Hs'.
  rewrite Hl' in Hs'.
  destruct (Ascii.eqb_spec c LF) as [->|Hc].
  - change (dot LF) with false. cbn [lines]. rewrite Ascii.eqb_refl, Hl'.
    destruct s' as [|d s''].
    + rewrite Hs'. simpl in Hl'. by injection Hl' as <- <-.
    + destruct (dot d) eqn:Hd.
      * cbn [caps pos expand submatch Nat.eqb].
        replace (0 + 1 + 1 - 0 - 1) with 1 by lia.
        cbn [replaceFrom].
        destruct (lines_nonempty s'') as (l'' & ls'' & Hl'').
        rewrite (replaceFrom_DiffLineStart_rest mark s'' 2 ltac:(lia)), Hl''.
        simpl in Hl'. unfold dot in Hd. apply negb_true_iff in Hd.
        rewrite Hd, Hl'' in Hl'. injection Hl' as <- <-.
        unfold markRest. cbn [map markLine].
        rewrite (unlines_cons "") by done.
        rewrite unlines_app, unlines_String, ?string_app_assoc.
        by simpl.
      * rewrite Hs'. simpl in Hl'. unfold dot in Hd.
        apply negb_false_iff in Hd. rewrite Hd in Hl'.
        injection Hl' as <- <-. done.
  - apply Ascii.eqb_neq in Hc. unfold dot. rewrite Hc. cbn [negb lines].
    rewrite Hc, Hl'.
    cbn [caps pos expand submatch Nat.eqb map markLine].
    replace (0 + 1 - 0 - 1) with 0 by lia. rewrite Hs'.
    unfold markRest.
    rewrite unlines_app, unlines_String, ?string_app_assoc. by simpl.
Qed.

(** *** The formatter, segment by segment *)

Lemma formatStep_segmentSpec (color redaction : bool) (buff : string) (d : Diff) :
  formatStep color redaction buff d = buff +:+ segmentSpec color redaction d.
Proof.
  unfold formatStep, segmentSpec, colorize.
  fold (redact (Text d)).
  destruct (Type_ d), redaction, color; cbn [negb];
    fold (markLineStarts "+ " (redact (Text d)));
    fold (markLineStarts "- " (redact (Text d)));
    fold (markLineStarts "+ " (Text d));
    fold (markLineStarts "- " (Text d));
    fold (markLineStarts "  " (Text d));
    rewrite ?markLineStarts_lines, ?string_app_assoc, ?string_app_nil_r;
    reflexivity.
Qed.

Lemma formatDiff_concat (diffs : list Diff) (color redaction : bool) :
  formatDiff diffs color redaction =
    concatAll (map (segmentSpec color redaction) diffs).
Proof.
  unfold formatDiff.
  enough (forall buff, foldl (formatStep color redaction) buff diffs =
            buff +:+ concatAll (map (segmentSpec color redaction) diffs))
    as H by apply (H "").
  induction diffs as [|d diffs IH]; intros buff; simpl.
  - by rewrite string_app_nil_r.
  - by rewrite IH, formatStep_segmentSpec, string_app_assoc.
Qed.

(** *** Fragments that are not of the shape *)

Lemma allChars_impl (p q : ascii -> bool) (s : string) :
  (forall c, p c = true -> q c = true) ->
  allChars p s = true -> allChars q s = true.
Proof.
  intros Hpq. induction s as [|c s IH]; simpl; [done|].
  intros [Hc Hs]%andb_true_iff. by rewrite (Hpq c Hc), IH.
Qed.

Lemma keyClass_noQuote (s : string) : allChars keyClass s = true -> noQuote s = true.
Proof.
  apply allChars_impl. intros c Hc. by rewrite (keyClass_not_quote c Hc).
Qed.

Lemma valueClass_noQuote (s : string) :
  allChars valueClass s = true -> noQuote s = true.
Proof.
  apply allChars_impl. intros c Hc. by rewrite (valueClass_not_quote c Hc).
Qed.

Lemma keyClass_plain (c : ascii) :
  keyClass c = true -> Ascii.eqb c quote = false /\ Ascii.eqb c backslash = false.
Proof.
  intros Hc. split.
  - by apply keyClass_not_quote.
  - destruct (Ascii.eqb_spec c backslash) as [->|]; [|done].
    vm_compute in Hc. discriminate.
Qed.

Lemma valueClass_plain (c : ascii) :
  valueClass c = true -> Ascii.eqb c quote = false /\ Ascii.eqb c backslash = false.
Proof.
  intros Hc. split.
  - by apply valueClass_not_quote.
  - destruct (Ascii.eqb_spec c backslash) as [->|]; [|done].
    vm_compute in Hc. discriminate.
Qed.

Lemma noQuote_quotesEscaped (s : string) (escaped : bool) :
  noQuote s = true -> quotesEscaped escaped s = true.
Proof.
  revert escaped. induction s as [|c s IH]; intros escaped; simpl; [done|].
  intros [Hc Hs]%andb_true_iff. apply negb_true_iff in Hc.
  by rewrite Hc, IH.
Qed.

(** A text whose quotes are escaped, followed by a quote, starts with a run
    of plain characters followed by a quote in one way only. *)
Lemma split_at_quote (p : ascii -> bool) (a b a' b' : string) :
  (forall c, p c = true ->
     Ascii.eqb c quote = false /\ Ascii.eqb c backslash = false) ->
  quotesEscaped false a = true -> allChars p a' = true ->
  a +:+ String quote b = a' +:+ String quote b' -> a = a' /\ b = b'.
Proof.
  intros Hp. revert a. induction a' as [|c' a' IH]; intros [|c a]; simpl.
  - by intros _ _ [= ->].
  - intros Ha _ [= -> _]. by rewrite Ascii.eqb_refl in Ha.
  - intros _ [Hc _]%andb_true_iff [= <- _].
    destruct (Hp _ Hc) as [Hq _]. by rewrite Ascii.eqb_refl in Hq.
  - intros [_ Ha]%andb_true_iff [Hc Ha']%andb_true_iff [= -> Heq].
    destruct (Hp _ Hc) as [_ Hb]. rewrite Hb in Ha.
    destruct (IH a Ha Ha' Heq) as [-> ->]. done.
Qed.

(** Copying a text whose quotes are escaped: no match starts inside it when
    none starts at any of its quotes. *)
Lemma redact_app_escaped (a rest : string) (escaped : bool) :
  quotesEscaped escaped a = true ->
  (forall a', quotesEscaped false a' = true ->
     keyValueMatch (String quote (a' +:+ rest)) = None) ->
  redact (a +:+ rest) = a +:+ redact rest.
Proof.
  intros Ha Hnone. revert escaped Ha.
  induction a as [|c a IH]; intros escaped; simpl; [done|].
  intros [Hc Ha]%andb_true_iff.
  destruct (Ascii.eqb_spec c quote) as [->|Hne].
  - change (Ascii.eqb quote backslash) with false in Ha.
    rewrite redact_copy by (by apply Hnone). by rewrite (IH false).
  - rewrite redact_copy
      by (by apply keyValueMatch_not_quote, Ascii.eqb_neq).
    by rewrite (IH _ Ha).
Qed.

Section Unshaped.
Variables (w : ascii) (val comma tail : string).
Hypothesis Hw : spaceClass w = true.
Hypothesis Hval : quotesEscaped false val = true.
Hypothesis Hbad : allChars valueClass val = false.
Hypothesis Hcomma : comma = "" \/ comma = ",".
Hypothesis Htail : endsLine tail = true.

Lemma unshaped_no_match_at_key (key : string) :
  quotesEscaped false key = true ->
  keyValueMatch (String quote (key +:+ String quote (String ":" (String w
    (String quote (val +:+ String quote (comma +:+ tail))))))) = None.
Proof.
  intros Hkey.
  destruct (keyValueMatch _) as [[[[[key' w'] val'] comma'] tail']|] eqn:Hm;
    [|done].
  apply keyValueMatch_sound in Hm as [Heq (_ & Hk' & _ & _ & Hv' & _)].
  rewrite keyValueFragment_app in Heq. injection Heq as Heq.
  apply (split_at_quote keyClass) in Heq as [-> Heq];
    [|exact keyClass_plain|done..].
  injection Heq as -> Heq.
  apply (split_at_quote valueClass) in Heq as [-> _];
    [|exact valueClass_plain|done..].
  congruence.
Qed.

Lemma unshaped_no_match_at_value (val' : string) :
  quotesEscaped false val' = true ->
  keyValueMatch (String quote (val' +:+ String quote (comma +:+ tail))) = None.
Proof.
  intros Hval'.
  destruct (keyValueMatch _) as [[[[[key' w'] v'] comma'] tail']|] eqn:Hm;
    [|done].
  apply keyValueMatch_sound in Hm as [Heq (_ & Hk' & _)].
  rewrite keyValueFragment_app in Heq. injection Heq as Heq.
  apply (split_at_quote keyClass) in Heq as [_ Heq];
    [|exact keyClass_plain|done..].
  destruct Hcomma as [-> | ->]; [|done].
  destruct tail as [|c t]; [done|]. simpl in Htail, Heq.
  apply Ascii.eqb_eq in Htail as ->. done.
Qed.

Lemma unshaped_no_match_at_end :
  keyValueMatch (String quote (comma +:+ tail)) = None.
Proof.
  destruct Hcomma as [-> | ->]; [|done].
  destruct tail as [|c t]; [done|]. simpl in Htail.
  apply Ascii.eqb_eq in Htail as ->. done.
Qed.

(** A fragment whose value holds a character outside the value class is
    copied as it is. *)
Lemma redact_unshaped (indent key : string) :
  noQuote indent = true -> quotesEscaped false key = true ->
  redact (indent +:+ keyValueFragment key w val comma +:+ tail) =
    indent +:+ keyValueFragment key w val comma +:+ redact tail.
Proof.
  intros Hindent Hkey. rewrite redact_app_noQuote by done. f_equal.
  assert (Ascii.eqb w quote = false) as Hwq.
  { destruct (Ascii.eqb_spec w quote) as [->|]; [|done].
    vm_compute in Hw. discriminate. }
  rewrite !keyValueFragment_app.
  rewrite redact_copy by (by apply unshaped_no_match_at_key).
  rewrite (redact_app_escaped key _ false Hkey)
    by (intros; by apply unshaped_no_match_at_key).
  rewrite (redact_copy quote) by done.
  rewrite (redact_copy ":") by done.
  rewrite (redact_copy w) by (by apply keyValueMatch_not_quote).
  rewrite redact_copy by (by apply unshaped_no_match_at_value).
  rewrite (redact_app_escaped val _ false Hval)
    by (intros; by apply unshaped_no_match_at_value).
  rewrite (redact_copy _ _ unshaped_no_match_at_end).
  rewrite (redact_app_noQuote comma); [done|].
  by destruct Hcomma as [-> | ->].
Qed.
End Unshaped.

(** ** The formatter: claims *)

(** C5 (as amended): for every segment sequence the output of the formatter
    is the concatenation of what each segment contributes.  An Insert
    segment contributes its text with ["+ "] in front of every non-empty
    line, a Delete segment with ["- "], an Equal segment with two spaces
    when redaction is inactive and nothing when it is active; empty lines
    get no marker.  Under redaction the text of an Insert or Delete segment
    is first rewritten from left to right: a fragment of the
    ["key": "value"] shape (with the comma that follows it, if any) becomes
    [key: <omitted>], and a character at which no such fragment starts is
    copied. *)
Theorem formatDiff_segments (diffs : list Diff) (color redaction : bool) :
  formatDiff diffs color redaction =
    concatAll (map (segmentSpec color redaction) diffs) /\
  redact "" = "" /\
  (forall key w val comma tail,
     keyValueShaped key w val comma ->
     (comma = "" -> forall t, tail <> String "," t) ->
     redact (keyValueFragment key w val comma +:+ tail) =
       key +:+ ": <omitted>" +:+ redact tail) /\
  (forall c s,
     (forall key w val comma tail,
        keyValueShaped key w val comma ->
        String c s <> keyValueFragment key w val comma +:+ tail) ->
     redact (String c s) = String c (redact s)).
Proof.
  split; [apply formatDiff_concat|]. split; [apply redact_nil|]. split.
  - intros key w val comma tail Hshape Htail.
    apply (redact_match _ key w val comma tail).
    by apply keyValueMatch_complete.
  - intros c s Hnone. apply redact_copy.
    destruct (keyValueMatch (String c s))
      as [[[[[key w] val] comma] tail]|] eqn:Hm; [|done].
    apply keyValueMatch_sound in Hm as [Heq Hshape].
    by destruct (Hnone key w val comma tail Hshape).
Qed.

Lemma formatDiff_segments_witness :
  redact (plainSecret +:+ "") = "password" +:+ ": <omitted>" +:+ redact "" /\
  redact (String "x" "y") = String "x" (redact "y").
Proof.
  split.
  - apply (formatDiff_segments [] false false).
    + unfold keyValueShaped. repeat split; try discriminate; try reflexivity.
      right; reflexivity.
    + discriminate.
  - apply (formatDiff_segments [] false false).
    intros key w val comma tail _. rewrite keyValueFragment_app. discriminate.
Defined.

(** C5 (as stated) fails on a blank line: the formatter leaves the empty
    line of an Insert segment without its ["+ "]. *)
Lemma formatDiff_blank_line_unmarked :
  formatDiff [mkDiff DiffInsert blankLineText] false false =
    "+ a" +:+ String LF (String LF ("+ b" +:+ String LF "")) /\
  formatDiff [mkDiff DiffInsert blankLineText] false false <> everyLineMarked.
Proof. split; [reflexivity|]. vm_compute. discriminate. Qed.

(** C10: a fragment is rewritten only when it has the exact shape: the
    text replaced by a match of [DiffKeyValue] is a quoted key of one or more
    characters of [[-._a-zA-Z0-9]], a colon, one white-space character, a
    quoted value of one or more alphanumerics, [=] or [+], and at most a
    comma, and its replacement is [key: <omitted>].  A fragment whose value
    holds any other character (its quotes escaped, as in a serialized
    string) is copied as it is, and an Insert or Delete segment made of such
    a fragment comes out the same with redaction as without. *)
Theorem redaction_exact_shape :
  (forall at_ s final,
     matchAt DiffKeyValue at_ s = Some final ->
     exists key w val comma tail,
       s = keyValueFragment key w val comma +:+ tail /\
       keyValueShaped key w val comma /\
       expand [Ref 1; Lit ": <omitted>"] (caps final) = key +:+ ": <omitted>") /\
  (forall indent key w val comma tail,
     noQuote indent = true -> quotesEscaped false key = true ->
     spaceClass w = true ->
     quotesEscaped false val = true -> allChars valueClass val = false ->
     comma = "" \/ comma = "," -> endsLine tail = true ->
     redact (indent +:+ keyValueFragment key w val comma +:+ tail) =
       indent +:+ keyValueFragment key w val comma +:+ redact tail) /\
  (forall op key w val comma color,
     op <> DiffEqual -> quotesEscaped false key = true ->
     spaceClass w = true ->
     quotesEscaped false val = true -> allChars valueClass val = false ->
     comma = "" \/ comma = "," ->
     formatDiff [mkDiff op (keyValueFragment key w val comma)] color true =
       formatDiff [mkDiff op (keyValueFragment key w val comma)] color false).
Proof.
  split; [|split].
  - intros at_ s final. rewrite matchAt_DiffKeyValue.
    destruct (keyValueMatch s) as [[[[[key w] val] comma] tail]|] eqn:Hm;
      [|done].
    intros [= <-]. exists key, w, val, comma, tail.
    apply keyValueMatch_sound in Hm as [Heq Hshape].
    repeat split; try apply Hshape; done.
  - intros indent key w val comma tail Hi Hk Hw Hv Hbad Hc Ht.
    by apply redact_unshaped.
  - intros op key w val comma color Hop Hk Hw Hv Hbad Hc.
    pose proof (redact_unshaped w val comma "" Hw Hv Hbad Hc eq_refl "" key
      eq_refl Hk) as Hred.
    rewrite redact_nil, !string_app_nil_r in Hred.
    change ("" +:+ keyValueFragment key w val comma)
      with (keyValueFragment key w val comma) in Hred.
    rewrite !formatDiff_concat. cbn [map concatAll]. f_equal.
    unfold segmentSpec. cbn [Text Type_]. rewrite Hred.
    by destruct op.
Qed.

Lemma redaction_exact_shape_witness :
  (exists key w val comma tail,
     plainSecret = keyValueFragment key w val comma +:+ tail /\
     keyValueShaped key w val comma /\
     expand [Ref 1; Lit ": <omitted>"]
       [(2, "c2VjcmV0"); (1, "password")] = key +:+ ": <omitted>") /\
  redact ("  " +:+ slashSecret +:+ String LF "") =
    "  " +:+ slashSecret +:+ redact (String LF "") /\
  formatDiff [mkDiff DiffInsert (keyValueFragment "k" " " quotedValue "")]
      false true =
    formatDiff [mkDiff DiffInsert (keyValueFragment "k" " " quotedValue "")]
      false false.
Proof.
  split; [|split].
  - apply (proj1 redaction_exact_shape 0 plainSecret
      {| pos := 23; rest := ""; caps := [(2, "c2VjcmV0"); (1, "password")] |}).
    reflexivity.
  - apply (proj1 (proj2 redaction_exact_shape)); try reflexivity.
    right; reflexivity.
  - apply (proj2 (proj2 redaction_exact_shape)); try reflexivity.
    + discriminate.
    + left; reflexivity.
Defined.

(** ** The reducer: further properties *)

Lemma fmap_Ret_inv {A B : Type} (f : A -> B) (m : outcome A) (b : B) :
  f <$> m = Ret b -> exists a, m = Ret a /\ b = f a.
Proof. destruct m as [a|]; [|done]. intros [= <-]. by exists a. Qed.

Lemma listFieldsLoop_covered (recurse : value -> value -> outcome value)
    (config live result : list value) :
  Forall2 (fun v2 c => recurse c v2 = Ret c) live config ->
  listFieldsLoop recurse config live result = Ret (result ++ config).
Proof.
  intros Hall. revert result.
  induction Hall as [|v2 c live config Hc _ IH]; intros result; simpl.
  - by rewrite app_nil_r.
  - rewrite Hc. simpl. by rewrite IH, <- app_assoc.
Qed.

Lemma listFieldsLoop_again (recurse : value -> value -> outcome value)
    (config live result final : list value) :
  Forall (fun c => forall v r, recurse c v = Ret r -> recurse c r = Ret r) config ->
  listFieldsLoop recurse config live result = Ret final ->
  exists appended, final = result ++ appended /\
    forall result', listFieldsLoop recurse config appended result' =
                      Ret (result' ++ appended).
Proof.
  intros Hall. revert live result.
  induction Hall as [|c config Hc _ IH]; intros live result; simpl.
  - rewrite foldl_snoc. intros [= <-]. exists live. split; [done|].
    intros result'. by rewrite foldl_snoc.
  - destruct live as [|v2 live].
    + intros [= <-]. exists []. split; [by rewrite app_nil_r|].
      intros result'. simpl. by rewrite app_nil_r.
    + destruct (recurse c v2) as [r|] eqn:Hr; simpl; [|done].
      intros Hloop. apply IH in Hloop as (appended & -> & Hagain).
      exists (r :: appended). rewrite <- app_assoc. split; [done|].
      intros result'. rewrite (Hc v2 r Hr). simpl.
      by rewrite Hagain, <- app_assoc.
Qed.

(** X1: reducing twice is reducing once.  When the reduction of a live value
    against a desired value returns [R], reducing [R] against the same
    desired value returns [R] again. *)
Theorem removeFields_idempotent (D L R : value) :
  removeFields D L = Ret R -> removeFields D R = Ret R.
Proof.
  revert L R.
  induction D as [l IH|m IH|v Hl Hm] using value_nested_ind; intros L R.
  - destruct L as [ll| | | | | | | |]; try (by intros [= <-]).
    rewrite removeFields_list. unfold removeListFields.
    intros (rr & Hrr & ->)%fmap_Ret_inv.
    apply listFieldsLoop_again in Hrr as (appended & -> & Hagain).
    + change ([] ++ appended) with appended.
      rewrite removeFields_list. unfold removeListFields.
      by rewrite (Hagain []).
    + eapply Forall_impl; [exact IH|]. intros c Hc v r. apply Hc.
  - destruct L as [| |lm| | | | | |]; try (by intros [= <-]).
    rewrite removeFields_map. unfold removeMapFields.
    intros (r & Hr & ->)%fmap_Ret_inv.
    rewrite removeFields_map. unfold removeMapFields.
    assert (mapFieldsLoop removeFields m r = Ret r) as ->; [|done].
    apply mapFieldsLoop_Ret in Hr. apply mapFieldsLoop_Ret. intros k.
    specialize (Hr k). destruct (m !! k) as [v1|] eqn:Hk; [|done].
    unfold fieldResult in *.
    destruct (lm !! k) as [v2|].
    + apply fmap_Ret_inv in Hr as (x & Hx & Hrk). rewrite Hrk.
      by rewrite (IH k v1 Hk v2 x Hx).
    + destruct (isEmptyValue v1) as [[]|] eqn:He; simpl in Hr; [| |done].
      * injection Hr as <-. by rewrite removeFields_same.
      * by injection Hr as <-.
  - destruct v; try (by intros [= <-]).
    + by destruct (Hl v).
    + by destruct (Hm v).
Qed.

Lemma removeFields_idempotent_witness :
  removeFields (VMap desiredDoc)
    (VMap (<["replicas" := VInt 0]> (<["labels" :=
       VMap (<["app" := VString "web"]> ∅)]> (<["ports" := VList [VInt 80]]> ∅)))) =
  Ret (VMap (<["replicas" := VInt 0]> (<["labels" :=
       VMap (<["app" := VString "web"]> ∅)]> (<["ports" := VList [VInt 80]]> ∅)))).
Proof.
  apply (removeFields_idempotent (VMap desiredDoc) (VMap liveDoc)).
  vm_compute. reflexivity.
Defined.

(** The reduction gives the desired value back exactly when the live value
    covers it. *)
Lemma removeFields_Ret_covers (D L : value) :
  removeFields D L = Ret D <-> covers L D.
Proof.
  revert L.
  induction D as [l IH|m IH|v Hl Hm] using value_nested_ind; intros L; split.
  - destruct L as [ll| | | | | | | |]; try (by intros [= <-]).
    rewrite removeFields_list. unfold removeListFields.
    intros (rr & Hrr & [= ->])%fmap_Ret_inv.
    apply listFieldsLoop_inv in Hrr as (appended & Happ & Hlen & Hidx).
    simpl in Happ. subst appended.
    constructor. apply Forall2_same_length_lookup. split; [done|].
    intros i v2 c Hv2 Hc. specialize (Hidx i v2 Hv2). rewrite Hc in Hidx.
    destruct Hidx as (r & Hr & [= ->]).
    rewrite Forall_forall in IH. apply IH; [|done].
    by eapply list_elem_of_lookup_2.
  - inversion 1 as [| ll l' Hall |v' Hnm Hnl]; subst.
    + rewrite removeFields_list. unfold removeListFields.
      rewrite (listFieldsLoop_covered removeFields l ll []); [done|].
      apply Forall2_same_length_lookup.
      apply Forall2_same_length_lookup in Hall as [Hlen Hall].
      split; [done|]. intros i v2 c Hv2 Hc.
      rewrite Forall_forall in IH. apply IH; [|by eapply Hall].
      by eapply list_elem_of_lookup_2.
    + by destruct (Hnl l).
  - destruct L as [| |lm| | | | | |]; try (by intros [= <-]).
    rewrite removeFields_map. unfold removeMapFields.
    intros (r & Hr & [= ->])%fmap_Ret_inv.
    apply mapFieldsLoop_Ret in Hr. constructor.
    + intros k v1 v2 Hk Hlk. specialize (Hr k).
      rewrite Hk in Hr. unfold fieldResult in Hr. rewrite Hlk in Hr.
      apply fmap_Ret_inv in Hr as (x & Hx & [= ->]).
      by apply (IH k x Hk).
    + intros k v1 Hk Hlk. specialize (Hr k).
      rewrite Hk in Hr. unfold fieldResult in Hr. rewrite Hlk in Hr.
      by destruct (isEmptyValue v1) as [[]|].
  - inversion 1 as [lm m' Hboth Hmissing| |v' Hnm Hnl]; subst.
    + rewrite removeFields_map. unfold removeMapFields.
      assert (mapFieldsLoop removeFields m lm = Ret m) as ->; [|done].
      apply mapFieldsLoop_Ret. intros k.
      destruct (m !! k) as [v1|] eqn:Hk; [|done].
      unfold fieldResult. destruct (lm !! k) as [v2|] eqn:Hlk.
      * specialize (Hboth k v1 v2 Hk Hlk).
        apply (IH k v1 Hk) in Hboth. by rewrite Hboth.
      * by rewrite (Hmissing k v1 Hk Hlk).
    + by destruct (Hnm m).
  - destruct v; try (intros [= ->]; by constructor).
    + by destruct (Hl v).
    + by destruct (Hm v).
  - inversion 1 as [lm m' Hboth Hmissing|ll l' Hall|v' Hnm Hnl]; subst.
    + by destruct (Hm m').
    + by destruct (Hl l').
    + apply removeFields_same.
Qed.


(** X2: the reduction gives the desired document back exactly when the live
    document covers it: every field the desired document sets is present in
    the live one with a covering value, or is missing there and empty in the
    desired document; what the live document holds besides does not count.
    This holds at each entry point of the reducer. *)
Theorem reduction_fixed_point :
  (forall D L : value, removeFields D L = Ret D <-> covers L D) /\
  (forall D L : gmap string value,
     removeMapFields D L = Ret D <-> covers (VMap L) (VMap D)) /\
  (forall D L : list value,
     removeListFields D L = Ret D <-> covers (VList L) (VList D)).
Proof.
  split; [exact removeFields_Ret_covers|]. split.
  - intros D L. rewrite <- removeFields_Ret_covers, removeFields_map.
    destruct (removeMapFields D L) as [R|]; simpl; [|done].
    split; [by intros [= ->]|by intros [= ->]].
  - intros D L. rewrite <- removeFields_Ret_covers, removeFields_list.
    destruct (removeListFields D L) as [R|]; simpl; [|done].
    split; [by intros [= ->]|by intros [= ->]].
Qed.

(** The map reduction panics when the emptiness predicate panics on the
    value of a key the live mapping lacks. *)
Lemma removeMapFields_panic_at (config live : gmap string value)
    (k : string) (v1 : value) :
  config !! k = Some v1 -> live !! k = None -> isEmptyValue v1 = Panic ->
  removeMapFields config live = Panic.
Proof.
  intros Hk Hlk Hpanic. unfold removeMapFields.
  pose proof (mapFieldsLoop_inv removeFields live config) as H.
  destruct (mapFieldsLoop removeFields config live) as [r|]; [|done].
  specialize (H k). rewrite Hk in H. unfold fieldResult in H.
  by rewrite Hlk, Hpanic in H.
Qed.

(** X3: a value of an unexpected type in the desired mapping makes the map
    reduction panic when the live mapping has no such key.  When the live
    mapping has the key and the rest of the desired mapping is decoded, the
    reduction returns and binds the key to the live value: the unexpected
    value is never looked at. *)
Theorem removeMapFields_unexpected_type (config live : gmap string value)
    (k ty : string) :
  config !! k = Some (VOther ty) ->
  (live !! k = None -> removeMapFields config live = Panic) /\
  (forall v2, live !! k = Some v2 -> decoded (VMap (delete k config)) = true ->
     exists R, removeMapFields config live = Ret R /\ R !! k = Some v2).
Proof.
  intros Hk. split.
  - intros Hlk. by apply (removeMapFields_panic_at config live k (VOther ty)).
  - intros v2 Hlk Hdec. unfold removeMapFields.
    destruct (mapFieldsLoop_total removeFields live config) as [R HR].
    + intros j v1 Hj. unfold fieldResult.
      destruct (decide (j = k)) as [->|Hne].
      * rewrite Hlk. assert (v1 = VOther ty) as -> by congruence. by eauto.
      * assert (decoded v1 = true) as Hv1.
        { apply (decoded_lookup (delete k config) j); [done|].
          by rewrite lookup_delete_ne. }
        destruct (live !! j) as [w2|].
        -- destruct (removeFields_total v1 Hv1 w2) as [r ->]. by eauto.
        -- destruct (isEmptyValue_decoded v1 Hv1) as [b ->]. by eauto.
    + exists R. split; [done|].
      apply mapFieldsLoop_Ret in HR. specialize (HR k).
      rewrite Hk in HR. unfold fieldResult in HR. rewrite Hlk in HR.
      simpl in HR. congruence.
Qed.

Lemma removeMapFields_unexpected_type_witness :
  removeMapFields oddDoc liveDoc = Panic /\
  exists R, removeMapFields oddDoc (<["timeout" := VInt 30]> liveDoc) = Ret R /\
            R !! "timeout" = Some (VInt 30).
Proof.
  split.
  - apply (removeMapFields_unexpected_type oddDoc liveDoc "timeout" "int32");
      reflexivity.
  - apply (removeMapFields_unexpected_type oddDoc
             (<["timeout" := VInt 30]> liveDoc) "timeout" "int32");
      reflexivity.
Defined.

(** X4: the map reduction reads the live mapping only at the keys of the
    desired mapping.  Two live mappings that agree on those keys reduce to the
    same result (or both make the reduction panic), whatever else they
    hold. *)
Theorem removeMapFields_live_only_keys (config live live' : gmap string value) :
  (forall k, is_Some (config !! k) -> live !! k = live' !! k) ->
  removeMapFields config live = removeMapFields config live'.
Proof.
  assert (forall l1 l2 r,
    (forall k, is_Some (config !! k) -> l1 !! k = l2 !! k) ->
    mapFieldsLoop removeFields config l1 = Ret r ->
    mapFieldsLoop removeFields config l2 = Ret r) as Hone.
  { intros l1 l2 r Hagree Hr.
    apply mapFieldsLoop_Ret in Hr. apply mapFieldsLoop_Ret. intros k.
    specialize (Hr k). destruct (config !! k) as [v1|] eqn:Hk; [|done].
    unfold fieldResult in *. by rewrite <- (Hagree k) by (by rewrite Hk). }
  intros Hagree. unfold removeMapFields.
  destruct (mapFieldsLoop removeFields config live) as [r|] eqn:Hr.
  - symmetry. by apply (Hone live live').
  - destruct (mapFieldsLoop removeFields config live') as [r'|] eqn:Hr'; [|done].
    rewrite (Hone live' live r') in Hr; [done| |done].
    intros k Hk. symmetry. by apply Hagree.
Qed.

Lemma removeMapFields_live_only_keys_witness :
  removeMapFields desiredDoc liveDoc =
  removeMapFields desiredDoc (delete "uid" liveDoc).
Proof.
  apply (removeMapFields_live_only_keys desiredDoc liveDoc (delete "uid" liveDoc)).
  intros k Hk. destruct (decide (k = "uid")) as [->|Hne].
  - vm_compute in Hk. destruct Hk as [x Hx]. discriminate.
  - by rewrite lookup_delete_ne.
Defined.

(** ** The formatter: further properties *)

Lemma concatAll_app (a b : list string) :
  concatAll (a ++ b) = concatAll a +:+ concatAll b.
Proof.
  induction a as [|s a IH]; simpl; [done|].
  by rewrite IH, string_app_assoc.
Qed.

(** X5: formatting is compositional.  The output for a sequence of segments
    followed by another is the output for the first followed by the output
    for the second; no segment's rendering depends on its neighbours. *)
Theorem formatDiff_app (diffs1 diffs2 : list Diff) (color omitchanges : bool) :
  formatDiff (diffs1 ++ diffs2) color omitchanges =
    formatDiff diffs1 color omitchanges +:+ formatDiff diffs2 color omitchanges.
Proof. by rewrite !formatDiff_concat, map_app, concatAll_app. Qed.

(** X6: under redaction the Equal segments leave no trace: the output is
    the output for the Insert and Delete segments alone. *)
Theorem formatDiff_redaction_drops_equal (diffs : list Diff) (color : bool) :
  formatDiff diffs color true =
    formatDiff (filter (fun d => isEqual d = false) diffs) color true.
Proof.
  rewrite !formatDiff_concat.
  induction diffs as [|d diffs IH]; [done|].
  rewrite filter_cons. cbn [map concatAll]. rewrite IH.
  unfold isEqual, segmentSpec. destruct (Type_ d) eqn:Ht.
  - rewrite decide_True by done. cbn [map concatAll].
    unfold segmentSpec. by rewrite Ht.
  - rewrite decide_True by done. cbn [map concatAll].
    unfold segmentSpec. by rewrite Ht.
  - by rewrite decide_False by done.
Qed.

(** X7: redaction hides the value.  Two Insert or Delete segments that
    differ only in the value (and the white space and comma) of a fragment
    of the ["key": "value"] shape are formatted alike under redaction: the
    output does not depend on the value. *)
Theorem formatDiff_redaction_hides_value (op : Operation) (color : bool)
    (indent key : string) (w w' : ascii) (val val' comma comma' tail : string) :
  noQuote indent = true ->
  keyValueShaped key w val comma -> keyValueShaped key w' val' comma' ->
  (forall t, tail <> String "," t) ->
  formatDiff [mkDiff op (indent +:+ keyValueFragment key w val comma +:+ tail)]
      color true =
    formatDiff [mkDiff op (indent +:+ keyValueFragment key w' val' comma' +:+ tail)]
      color true.
Proof.
  intros Hi Hs Hs' Htail.
  rewrite !formatDiff_concat. cbn [map concatAll]. f_equal.
  unfold segmentSpec. cbn [Text Type_].
  rewrite !(redact_app_noQuote indent) by done.
  rewrite (redact_match (keyValueFragment key w val comma +:+ tail)
             key w val comma tail) by (by apply keyValueMatch_complete).
  by rewrite (redact_match (keyValueFragment key w' val' comma' +:+ tail)
                key w' val' comma' tail) by (by apply keyValueMatch_complete).
Qed.

Lemma formatDiff_redaction_hides_value_witness :
  formatDiff [mkDiff DiffInsert
      ("  " +:+ keyValueFragment "password" " " "c2VjcmV0" "," +:+ String LF "")]
      true true =
    formatDiff [mkDiff DiffInsert
      ("  " +:+ keyValueFragment "password" " " "b3RoZXI=" "" +:+ String LF "")]
      true true.
Proof.
  apply (formatDiff_redaction_hides_value DiffInsert true "  " "password"
           " " " " "c2VjcmV0" "b3RoZXI=" "," "" (String LF "")).
  - reflexivity.
  - unfold keyValueShaped. repeat split; try discriminate; try reflexivity.
    right; reflexivity.
  - unfold keyValueShaped. repeat split; try discriminate; try reflexivity.
    left; reflexivity.
  - discriminate.
Defined.

(** *** Lines of a text *)

Lemma lines_app_LF (a b : string) :
  lines (a +:+ String LF b) = lines a ++ lines b.
Proof.
  induction a as [|c a IH]; simpl.
  - change (Ascii.eqb LF LF) with true. done.
  - destruct (Ascii.eqb c LF); [by rewrite IH|].
    rewrite IH. destruct (lines_nonempty a) as (l & ls & ->). done.
Qed.

Lemma unlines_app_lists (xs ys : list string) :
  xs <> [] -> ys <> [] ->
  unlines (xs ++ ys) = unlines xs +:+ String LF (unlines ys).
Proof.
  intros Hxs Hys. induction xs as [|x xs IH]; [done|].
  destruct xs as [|x' xs].
  - simpl. destruct ys; [done|]. done.
  - change ((x :: x' :: xs) ++ ys) with (x :: ((x' :: xs) ++ ys)).
    rewrite unlines_cons by done. rewrite IH by done.
    rewrite (unlines_cons x (x' :: xs)) by done.
    rewrite string_app_assoc. done.
Qed.

Lemma unlines_lines (s : string) : unlines (lines s) = s.
Proof.
  induction s as [|c s IH]; [done|]. simpl.
  destruct (Ascii.eqb_spec c LF) as [->|Hne].
  - destruct (lines_nonempty s) as (l & ls & Hl).
    rewrite unlines_cons by (by rewrite Hl). by rewrite IH.
  - destruct (lines_nonempty s) as (l & ls & Hl). rewrite Hl in *.
    by rewrite unlines_String, IH.
Qed.

Lemma lines_noLF (s : string) : Forall (fun l => noLF l = true) (lines s).
Proof.
  induction s as [|c s IH]; simpl; [by repeat constructor|].
  destruct (Ascii.eqb c LF) eqn:Hc; [by constructor|].
  destruct (lines s) as [|l ls].
  - repeat constructor. unfold noLF. simpl. by rewrite Hc.
  - inversion IH as [|? ? Hl Hls]; subst. constructor; [|done].
    unfold noLF in *. simpl. by rewrite Hc.
Qed.

Lemma lines_of_noLF (l : string) : noLF l = true -> lines l = [l].
Proof.
  unfold noLF. induction l as [|c l IH]; simpl; [done|].
  intros [Hc Hl]%andb_true_iff. apply negb_true_iff in Hc. rewrite Hc.
  by rewrite IH.
Qed.

Lemma lines_unlines (ls : list string) :
  ls <> [] -> Forall (fun l => noLF l = true) ls -> lines (unlines ls) = ls.
Proof.
  intros Hne Hall. induction Hall as [|l ls Hl Hls IH]; [done|].
  destruct ls as [|l' ls].
  - simpl. by apply lines_of_noLF.
  - rewrite unlines_cons by done. rewrite lines_app_LF.
    rewrite lines_of_noLF by done. by rewrite IH.
Qed.

Lemma noLF_app (a b : string) :
  noLF a = true -> noLF b = true -> noLF (a +:+ b) = true.
Proof.
  unfold noLF. induction a as [|c a IH]; simpl; [done|].
  intros [Hc Ha]%andb_true_iff Hb. by rewrite Hc, IH.
Qed.

Lemma unmark_markLine (m1 m2 : ascii) (l : string) :
  unmarkLine (markLine (String m1 (String m2 "")) l) = l.
Proof. by destruct l. Qed.

Lemma endsInLF_split (s : string) :
  endsInLF s = true -> exists s', s = s' +:+ String LF "".
Proof.
  induction s as [|c s IH]; [done|]. simpl. destruct s as [|d s].
  - intros ->%Ascii.eqb_eq. by exists "".
  - intros [s' Hs']%IH. exists (String c s'). simpl. by rewrite Hs'.
Qed.

Lemma stripMarkers_app_LF (a b : string) :
  stripMarkers (a +:+ String LF b) =
    stripMarkers a +:+ String LF (stripMarkers b).
Proof.
  unfold stripMarkers. rewrite lines_app_LF, map_app.
  destruct (lines_nonempty a) as (l & ls & ->).
  destruct (lines_nonempty b) as (l' & ls' & ->).
  by apply unlines_app_lists.
Qed.

Lemma stripMarkers_marked (m1 m2 : ascii) (text : string) :
  Ascii.eqb m1 LF = false -> Ascii.eqb m2 LF = false ->
  stripMarkers (unlines (map (markLine (String m1 (String m2 ""))) (lines text))) =
    text.
Proof.
  intros H1 H2. unfold stripMarkers. rewrite lines_unlines.
  - rewrite map_map.
    rewrite (map_ext _ (fun l => l)) by (intros l; apply unmark_markLine).
    by rewrite map_id, unlines_lines.
  - destruct (lines_nonempty text) as (l & ls & ->). done.
  - apply Forall_map. eapply Forall_impl; [apply lines_noLF|].
    intros l Hl. destruct l as [|c l]; [done|].
    change (markLine (String m1 (String m2 "")) (String c l))
      with (String m1 (String m2 (String c l))).
    unfold noLF in *. simpl in *. by rewrite H1, H2.
Qed.

Lemma segmentSpec_plain (d : Diff) :
  exists m1 m2, Ascii.eqb m1 LF = false /\ Ascii.eqb m2 LF = false /\
    segmentSpec false false d =
      unlines (map (markLine (String m1 (String m2 ""))) (lines (Text d))).
Proof.
  unfold segmentSpec, colorize. destruct (Type_ d).
  - by exists "-"%char, " "%char.
  - by exists "+"%char, " "%char.
  - by exists " "%char, " "%char.
Qed.

(** X8: nothing is lost in formatting.  For a line-aligned sequence of
    segments (every segment but the last ends with a newline, as in a
    line-mode diff), formatted without colour and without redaction, taking
    the two marker characters off every line of the output gives back the
    texts of the segments, one after the other.  The markers are the only
    thing the formatter adds, and a blank line comes out blank. *)
Theorem formatDiff_stripMarkers (diffs : list Diff) :
  lineAligned diffs = true ->
  stripMarkers (formatDiff diffs false false) = concatAll (map Text diffs).
Proof.
  rewrite formatDiff_concat.
  induction diffs as [|d diffs IH]; [done|].
  intros Haligned. cbn [map concatAll].
  destruct (segmentSpec_plain d) as (m1 & m2 & H1 & H2 & ->).
  destruct diffs as [|d' diffs].
  - cbn [map concatAll]. rewrite !string_app_nil_r.
    by apply stripMarkers_marked.
  - change (lineAligned (d :: d' :: diffs))
      with (endsInLF (Text d) && lineAligned (d' :: diffs)) in Haligned.
    apply andb_true_iff in Haligned as [Hend Hrest].
    apply endsInLF_split in Hend as [t Ht]. rewrite Ht.
    rewrite lines_app_LF, map_app.
    change (lines "") with [""].
    change (map (markLine (String m1 (String m2 ""))) [""]) with [""].
    destruct (lines_nonempty t) as (l & ls & Hl).
    rewrite unlines_app_lists; [|by rewrite Hl|done].
    change (unlines [""]) with "". rewrite !string_app_assoc.
    change (String LF "" +:+ ?x) with (String LF x).
    rewrite stripMarkers_app_LF, IH by done.
    by rewrite stripMarkers_marked.
Qed.

Lemma formatDiff_stripMarkers_witness :
  stripMarkers (formatDiff sampleDiff false false) =
    concatAll (map Text sampleDiff).
Proof. apply (formatDiff_stripMarkers sampleDiff). reflexivity. Defined.

(** X17: without redaction the formatter marks lines and does nothing
    else.  Each segment comes out with the marker of its kind (["+ "],
    ["- "] or two spaces) in front of every non-empty line, an empty line
    stays empty, and with colour an Insert or Delete segment stands between
    its colour code and the reset code; an Equal segment is never
    coloured. *)
Theorem formatDiff_marks_lines (diffs : list Diff) (color : bool) :
  formatDiff diffs color false =
    concatAll (map (fun d =>
      inColor color (Type_ d)
        (unlines (map (markLine (marker (Type_ d))) (lines (Text d))))) diffs).
Proof.
  rewrite formatDiff_concat. f_equal. apply map_ext. intros d.
  unfold segmentSpec, inColor, colorize, marker, colorOf.
  by destruct (Type_ d), color.
Qed.

Lemma redact_noQuote (s : string) : noQuote s = true -> redact s = s.
Proof.
  intros Hs. rewrite <- (string_app_nil_r s) at 1.
  by rewrite redact_app_noQuote, redact_nil, string_app_nil_r.
Qed.

(** X18: redaction leaves a value alone that is not made of alphanumerics,
    [=] and [+].  A line that holds one such ["key": "value"] fragment (its
    quotes escaped, as in a serialized string) and no other quote is
    formatted with redaction exactly as without it when it is inserted or
    deleted: a secret whose value holds, say, a slash is shown in full. *)
Theorem formatDiff_redaction_leaves_unshaped (op : Operation) (color : bool)
    (indent key : string) (w : ascii) (val comma tail : string) :
  op <> DiffEqual ->
  noQuote indent = true -> quotesEscaped false key = true ->
  spaceClass w = true ->
  quotesEscaped false val = true -> allChars valueClass val = false ->
  comma = "" \/ comma = "," ->
  endsLine tail = true -> noQuote tail = true ->
  formatDiff [mkDiff op (indent +:+ keyValueFragment key w val comma +:+ tail)]
      color true =
    formatDiff [mkDiff op (indent +:+ keyValueFragment key w val comma +:+ tail)]
      color false.
Proof.
  intros Hop Hi Hk Hw Hv Hbad Hc Hend Htail.
  rewrite !formatDiff_concat. cbn [map concatAll]. f_equal.
  unfold segmentSpec. cbn [Text Type_].
  rewrite (redact_unshaped w val comma tail) by done.
  rewrite (redact_noQuote tail) by done.
  by destruct op.
Qed.

Lemma formatDiff_redaction_leaves_unshaped_witness :
  formatDiff [mkDiff DiffInsert slashLine] true true =
    formatDiff [mkDiff DiffInsert slashLine] true false.
Proof.
  apply (formatDiff_redaction_leaves_unshaped DiffInsert true "  " "password"
           " " "c2Vj/mV0" "," (String LF "")); try reflexivity.
  - discriminate.
  - right; reflexivity.
Defined.

(** ** The dispatcher: properties *)

Section RunProperties.
Context {SchemaDoc Resources Schema : Type}.
Variable w : World SchemaDoc Resources Schema.

Lemma header_written (obj : Unstructured) (out : string) :
  (out +:+ "---" +:+ nl) +:+
    "- live " +:+ description w obj +:+ nl +:+
    "+ config " +:+ description w obj +:+ nl =
  out +:+ header w obj.
Proof. unfold header. by rewrite !string_app_assoc. Qed.

(** The body of the loop for a resource that is not found. *)
Lemma processObject_absent (c : DiffCmd) (res : Resources) (obj : Unstructured)
    (out : string) (diffFound : bool) :
  absentOnServer w obj ->
  processObject c w res obj out diffFound =
    Continue (out +:+ absentBlock w obj) true.
Proof.
  intros (Hclient & Hname & liveObj & cause & Hget & Hnf).
  unfold processObject. rewrite Hclient.
  apply String.eqb_neq in Hname. rewrite Hname, Hget, Hnf.
  f_equal. fold (description w obj). rewrite header_written.
  unfold absentBlock. by rewrite !string_app_assoc.
Qed.

(** The body of the loop for a resource the server has. *)
Lemma processObject_live (c : DiffCmd) (res : Resources) (obj live : Unstructured)
    (out : string) (diffFound : bool) :
  ClientForResource w obj = None -> GetName w obj <> "" ->
  Get w obj = (Some live, None) ->
  processObject c w res obj out diffFound =
    if String.eqb (DiffStrategy c) "update" then
      match patch w live obj (validSchema w res obj) with
      | Err err => Return (out +:+ header w obj) (Some err)
      | Ok mergedObj =>
          let liveObj :=
            if CreationTimestampIsZero w mergedObj
            then ClearCreationTimestamp w live else live in
          if SemanticDeepEqual w liveObj mergedObj
          then Return (out +:+ header w obj) None
          else
            Return (fst (compareDocuments c w obj (description w obj)
                           (Object (DeleteOrigAnnotation w liveObj))
                           (Object (DeleteOrigAnnotation w mergedObj))
                           (out +:+ header w obj) diffFound)) None
      end
    else
      match (if String.eqb (DiffStrategy c) "subset"
             then removeMapFields (Object obj) (Object live)
             else Ret (Object live)) with
      | Panic => Unwind (out +:+ header w obj)
      | Ret liveObjObject =>
          let r := compareDocuments c w obj (description w obj)
                     liveObjObject (Object obj) (out +:+ header w obj) diffFound in
          Continue (fst r) (snd r)
      end.
Proof.
  intros Hclient Hname Hget.
  unfold processObject. rewrite Hclient.
  apply String.eqb_neq in Hname. rewrite Hname, Hget.
  fold (description w obj). cbv zeta. rewrite header_written.
  fold (validSchema w res obj).
  destruct (String.eqb (DiffStrategy c) "update").
  - destruct (patch w live obj (validSchema w res obj)) as [mergedObj|err]; [|done].
    destruct (SemanticDeepEqual w _ mergedObj); [done|].
    by destruct (compareDocuments c w obj _ _ _ _ diffFound).
  - destruct (if String.eqb (DiffStrategy c) "subset" then _ else _); [|done].
    by destruct (compareDocuments c w obj _ _ _ _ diffFound).
Qed.

(** X9: under the update strategy the run ends at the first resource the
    server has.  Whatever resources follow are not looked at, and the result
    is the error of [patch] or nil; in particular differences found before
    or at this resource are not reported as [ErrDiffFound].  When the merged
    object equals the live one, only the header of the resource is written:
    there is no "unchanged" line. *)
Theorem update_returns_at_first_live (c : DiffCmd) (res : Resources)
    (obj live : Unstructured) (rest : list Unstructured)
    (out : string) (diffFound : bool) :
  DiffStrategy c = "update" ->
  ClientForResource w obj = None -> GetName w obj <> "" ->
  Get w obj = (Some live, None) ->
  (exists out',
     runLoop c w res (obj :: rest) out diffFound =
       (out', Returned match patch w live obj (validSchema w res obj) with
                       | Err err => Some err
                       | Ok _ => None
                       end)) /\
  (forall rest',
     runLoop c w res (obj :: rest') out diffFound =
     runLoop c w res (obj :: rest) out diffFound) /\
  (forall mergedObj,
     patch w live obj (validSchema w res obj) = Ok mergedObj ->
     SemanticDeepEqual w
       (if CreationTimestampIsZero w mergedObj
        then ClearCreationTimestamp w live else live) mergedObj = true ->
     runLoop c w res (obj :: rest) out diffFound =
       (out +:+ header w obj, Returned None)).
Proof.
  intros Hupdate Hclient Hname Hget.
  assert (forall mergedObj,
     patch w live obj (validSchema w res obj) = Ok mergedObj ->
     SemanticDeepEqual w
       (if CreationTimestampIsZero w mergedObj
        then ClearCreationTimestamp w live else live) mergedObj = true ->
     runLoop c w res (obj :: rest) out diffFound =
       (out +:+ header w obj, Returned None)) as Hequal.
  { intros mergedObj Hpatch Hsame. cbn [runLoop].
    rewrite (processObject_live c res obj live) by done. rewrite Hupdate.
    change (String.eqb "update" "update") with true. cbv iota.
    rewrite Hpatch. cbv zeta. by rewrite Hsame. }
  assert (exists out' err,
    processObject c w res obj out diffFound = Return out' err /\
    err = match patch w live obj (validSchema w res obj) with
          | Err err => Some err
          | Ok _ => None
          end) as (out' & err & Hstep & ->).
  { rewrite (processObject_live c res obj live) by done. rewrite Hupdate.
    change (String.eqb "update" "update") with true. cbv iota.
    destruct (patch w live obj (validSchema w res obj)) as [mergedObj|e];
      [|by eauto].
    cbv zeta. destruct (SemanticDeepEqual w _ mergedObj); by eauto. }
  split; [|split; [|done]].
  - exists out'. cbn [runLoop]. by rewrite Hstep.
  - intros rest'. cbn [runLoop]. by rewrite Hstep.
Qed.

(** What an iteration gives under a strategy other than update. *)
Lemma processObject_not_update (c : DiffCmd) (res : Resources) (obj : Unstructured)
    (out : string) (diffFound : bool) :
  DiffStrategy c <> "update" ->
  match processObject c w res obj out diffFound with
  | Continue out' diffFound' =>
      if diffFound' then True
      else diffFound = false /\ out' = out +:+ unchangedBlock w obj /\
           exists live, Get w obj = (Some live, None)
  | Return _ err => exists e, err = Some e /\ failureOf w c obj e
  | Unwind _ => DiffStrategy c = "subset"
  end.
Proof.
  intros Hstrategy. apply String.eqb_neq in Hstrategy.
  destruct (ClientForResource w obj) as [e|] eqn:Hclient.
  { unfold processObject. rewrite Hclient. exists e. split; [done|]. by left. }
  destruct (String.eqb (GetName w obj) "") eqn:Hname.
  { unfold processObject. rewrite Hclient, Hname.
    apply String.eqb_eq in Hname. eexists. split; [done|]. right. by left. }
  destruct (Get w obj) as [liveObj [cause|]] eqn:Hget.
  - unfold processObject. rewrite Hclient, Hname, Hget.
    destruct (IsNotFound cause) eqn:Hnf; [done|].
    eexists. split; [done|]. right. right. left. by exists liveObj, cause.
  - destruct liveObj as [live|].
    + apply String.eqb_neq in Hname.
      rewrite (processObject_live c res obj live) by done. rewrite Hstrategy.
      destruct (String.eqb (DiffStrategy c) "subset") eqn:Hsubset.
      * destruct (removeMapFields (Object obj) (Object live)) as [reduced|];
          [|by apply String.eqb_eq].
        cbv zeta. unfold compareDocuments.
        destruct (singleEqual _); cbn [fst snd]; [|done].
        destruct diffFound; [done|]. split; [done|]. split; [|by eauto].
        unfold unchangedBlock. by rewrite !string_app_assoc.
      * cbv zeta. unfold compareDocuments.
        destruct (singleEqual _); cbn [fst snd]; [|done].
        destruct diffFound; [done|]. split; [done|]. split; [|by eauto].
        unfold unchangedBlock. by rewrite !string_app_assoc.
    + unfold processObject. by rewrite Hclient, Hname, Hget.
Qed.

(** X10: under a strategy other than update, a run that returns nil has
    found every resource on the server and reported each of them unchanged:
    it started without a difference, and what it wrote is the unchanged
    block of each resource, in order, and nothing else. *)
Theorem clean_run_all_unchanged (c : DiffCmd) (res : Resources)
    (objs : list Unstructured) (out out' : string) (diffFound : bool) :
  DiffStrategy c <> "update" ->
  runLoop c w res objs out diffFound = (out', Returned None) ->
  diffFound = false /\
  out' = out +:+ concatAll (map (unchangedBlock w) objs) /\
  Forall (fun obj => exists live, Get w obj = (Some live, None)) objs.
Proof.
  intros Hstrategy. revert out diffFound.
  induction objs as [|obj objs IH]; intros out diffFound; cbn [runLoop].
  - destruct diffFound; [done|]. intros [= <-].
    cbn [map concatAll]. by rewrite string_app_nil_r.
  - pose proof (processObject_not_update c res obj out diffFound Hstrategy) as H.
    destruct (processObject c w res obj out diffFound)
      as [out1 diffFound1|out1 err|out1]; [| |done].
    + intros Hrest. apply IH in Hrest as (-> & -> & Hall).
      destruct H as (-> & -> & Hlive).
      split; [done|]. split; [|by constructor].
      cbn [map concatAll]. by rewrite string_app_assoc.
    + destruct H as (e & -> & _). done.
Qed.
(** X11: a resource the server does not have is not an error.  Whatever the
    strategy, a run over resources none of which is found writes the absent
    block of each, in order, and returns [ErrDiffFound] (or, over no
    resource at all, reports what was found before). *)
Theorem run_all_absent (c : DiffCmd) (res : Resources)
    (objs : list Unstructured) (out : string) (diffFound : bool) :
  Forall (absentOnServer w) objs ->
  runLoop c w res objs out diffFound =
    (out +:+ concatAll (map (absentBlock w) objs),
     Returned (if match objs with [] => diffFound | _ => true end
               then Some ErrDiffFound else None)).
Proof.
  intros Hall. revert out diffFound.
  induction Hall as [|obj objs Hobj _ IH]; intros out diffFound; cbn [runLoop].
  - cbn [map concatAll]. by rewrite string_app_nil_r.
  - rewrite processObject_absent by done. rewrite IH.
    cbn [map concatAll]. rewrite string_app_assoc. by destruct objs.
Qed.

(** The errors of the loop. *)
Lemma runLoop_error_sources (c : DiffCmd) (res : Resources)
    (objs : list Unstructured) (out out' : string) (diffFound : bool) (e : error) :
  runLoop c w res objs out diffFound = (out', Returned (Some e)) ->
  e = ErrDiffFound \/ exists obj, obj ∈ objs /\ failureOf w c obj e.
Proof.
  revert out diffFound.
  induction objs as [|obj objs IH]; intros out diffFound; cbn [runLoop].
  - destruct diffFound; [|done]. intros [= _ <-]. by left.
  - destruct (processObject c w res obj out diffFound)
      as [out1 diffFound1|out1 err|out1] eqn:Hstep; [| |done].
    + intros [->|(o & Ho & Hfail)]%IH; [by left|].
      right. exists o. split; [by right|done].
    + intros [= _ ->]. right. exists obj. split; [by left|].
      revert Hstep. unfold processObject.
      destruct (ClientForResource w obj) as [e'|] eqn:Hclient.
      { intros [= _ ->]. by left. }
      destruct (String.eqb (GetName w obj) "") eqn:Hname.
      { intros [= _ <-]. apply String.eqb_eq in Hname. right. by left. }
      destruct (Get w obj) as [liveObj [cause|]] eqn:Hget.
      * destruct (IsNotFound cause) eqn:Hnf; [done|].
        intros [= _ <-]. right. right. left. by exists liveObj, cause.
      * destruct liveObj as [live|]; [|done].
        destruct (String.eqb (DiffStrategy c) "update") eqn:Hupdate.
        -- apply String.eqb_eq in Hupdate.
           destruct (patch w live obj _) as [mergedObj|err] eqn:Hpatch.
           ++ destruct (SemanticDeepEqual w _ mergedObj); [done|].
              by destruct (compareDocuments c w obj _ _ _ _ diffFound).
           ++ intros [= _ ->]. right. right. right. split; [done|]. by eauto.
        -- destruct (if String.eqb (DiffStrategy c) "subset" then _ else _);
             [|done].
           by destruct (compareDocuments c w obj _ _ _ _ diffFound).
Qed.

(** X12: every error [Run] returns is [ErrDiffFound], the error of the
    discovery client or of the schema parser, or, for one of the resources,
    the error of the client factory, of the missing name, of the fetch, or
    of [patch] under the update strategy.  Serializing and diffing never
    make [Run] return an error: the error of the serializer is dropped where
    it is called. *)
Theorem run_error_sources (c : DiffCmd) (objs : list Unstructured)
    (out : string) (e : error) :
  Run c w objs = (out, Returned (Some e)) ->
  e = ErrDiffFound \/
  OpenAPISchema w = Err e \/
  (exists schemaDoc,
     OpenAPISchema w = Ok schemaDoc /\ NewOpenAPIData w schemaDoc = Err e) \/
  (exists obj, obj ∈ AlphabeticalOrder w objs /\ failureOf w c obj e).
Proof.
  unfold Run.
  destruct (OpenAPISchema w) as [schemaDoc|err] eqn:Hschema.
  - destruct (NewOpenAPIData w schemaDoc) as [res|err] eqn:Hdata.
    + intros [->|Hobj]%runLoop_error_sources; [by left|]. by repeat right.
    + intros [= _ ->]. right. right. left. by exists schemaDoc.
  - intros [= _ ->]. right. by left.
Qed.



(** X15: the subset strategy reports a covered resource unchanged.  When
    every resource is on the server in a state that covers the desired one
    (the server may have added fields, and left out empty ones), and the
    differencer answers with one Equal segment on the serialization of each
    desired document compared with itself, the run writes the unchanged
    block of each resource and reports no difference of its own. *)
Theorem subset_covered_unchanged (c : DiffCmd) (res : Resources)
    (objs : list Unstructured) (out : string) (diffFound : bool) :
  DiffStrategy c = "subset" ->
  Forall (coveredOnServer w) objs ->
  runLoop c w res objs out diffFound =
    (out +:+ concatAll (map (unchangedBlock w) objs),
     Returned (if diffFound then Some ErrDiffFound else None)).
Proof.
  intros Hsubset Hall. revert out.
  induction Hall as [|obj objs Hobj _ IH]; intros out; cbn [runLoop].
  - cbn [map concatAll]. by rewrite string_app_nil_r.
  - destruct Hobj as (Hclient & Hname & live & Hget & Hcovers & Hdiff).
    rewrite (processObject_live c res obj live) by done. rewrite Hsubset.
    change (String.eqb "subset" "update") with false.
    change (String.eqb "subset" "subset") with true. cbv iota.
    apply removeFields_Ret_covers in Hcovers.
    rewrite removeFields_map in Hcovers.
    apply fmap_Ret_inv in Hcovers as (reduced & -> & [= <-]).
    cbv zeta. unfold compareDocuments. rewrite Hdiff.
    cbn [singleEqual Type_ fst snd]. rewrite IH.
    cbn [map concatAll]. unfold unchangedBlock.
    by rewrite !string_app_assoc.
Qed.

(** X16: under the subset strategy a value of an unexpected type in the
    desired document, under a key the live document lacks, ends the run by a
    panic once the header of the resource is written.  Under any other
    strategy the reducer is not called, and the dispatcher does not panic. *)
Theorem subset_unexpected_type_panics (c : DiffCmd) (res : Resources) :
  (forall obj live rest out diffFound k ty,
     DiffStrategy c = "subset" ->
     ClientForResource w obj = None -> GetName w obj <> "" ->
     Get w obj = (Some live, None) ->
     Object obj !! k = Some (VOther ty) -> Object live !! k = None ->
     runLoop c w res (obj :: rest) out diffFound =
       (out +:+ header w obj, Panicked)) /\
  (forall objs out diffFound,
     DiffStrategy c <> "subset" ->
     snd (runLoop c w res objs out diffFound) <> Panicked).
Proof.
  split.
  - intros obj live rest out diffFound k ty Hsubset Hclient Hname Hget Hk Hlk.
    cbn [runLoop].
    rewrite (processObject_live c res obj live) by done. rewrite Hsubset.
    change (String.eqb "subset" "update") with false.
    change (String.eqb "subset" "subset") with true. cbv iota.
    by rewrite (removeMapFields_panic_at (Object obj) (Object live) k (VOther ty)).
  - intros objs out diffFound Hsubset%String.eqb_neq. revert out diffFound.
    induction objs as [|obj objs IH]; intros out diffFound; cbn [runLoop];
      [done|].
    destruct (processObject c w res obj out diffFound)
      as [out1 diffFound1|out1 err|out1] eqn:Hstep; [apply IH|done|].
    exfalso. revert Hstep. unfold processObject.
    destruct (ClientForResource w obj); [done|].
    destruct (String.eqb (GetName w obj) ""); [done|].
    destruct (Get w obj) as [liveObj [cause|]].
    + by destruct (IsNotFound cause).
    + destruct liveObj as [live|]; [|done].
      destruct (String.eqb (DiffStrategy c) "update").
      * destruct (patch w live obj _) as [mergedObj|err]; [|done].
        destruct (SemanticDeepEqual w _ mergedObj); [done|].
        by destruct (compareDocuments c w obj _ _ _ _ diffFound).
      * rewrite Hsubset.
        by destruct (compareDocuments c w obj _ _ _ _ diffFound).
Qed.
End RunProperties.

(** *** The dispatcher in the sample world *)

Lemma update_returns_at_first_live_witness :
  (exists out',
     runLoop updateCmd (sampleWorld sampleServer) tt [desiredA; desiredB] "" false =
       (out', Returned None)) /\
  (forall rest',
     runLoop updateCmd (sampleWorld sampleServer) tt (desiredA :: rest') "" false =
     runLoop updateCmd (sampleWorld sampleServer) tt [desiredA; desiredB] "" false) /\
  runLoop updateCmd (sampleWorld sampleServer) tt [desiredA; desiredB] "" false =
    ("" +:+ header (sampleWorld sampleServer) desiredA, Returned None).
Proof.
  destruct (update_returns_at_first_live (sampleWorld sampleServer) updateCmd tt
              desiredA (mkUnstructured liveA) [desiredB] "" false)
    as (Hends & Hrest & Hequal); try reflexivity; [discriminate|].
  split; [exact Hends|]. split; [exact Hrest|].
  apply (Hequal (mkUnstructured (Object desiredA ∪ liveA))); reflexivity.
Defined.

Lemma clean_run_all_unchanged_witness :
  false = false /\
  unchangedBlock (sampleWorld sampleServer) desiredA =
    "" +:+ concatAll (map (unchangedBlock (sampleWorld sampleServer)) [desiredA]) /\
  Forall (fun obj => exists live,
            Get (sampleWorld sampleServer) obj = (Some live, None)) [desiredA].
Proof.
  apply (clean_run_all_unchanged (sampleWorld sampleServer) subsetCmd tt
           [desiredA] "" (unchangedBlock (sampleWorld sampleServer) desiredA) false).
  - discriminate.
  - reflexivity.
Defined.

Lemma sample_absent (obj : Unstructured) :
  sampleName obj <> "" -> absentOnServer (sampleWorld emptyServer) obj.
Proof.
  intros Hname. split; [done|]. split; [done|].
  by exists None, (External true "not found").
Qed.

Lemma run_all_absent_witness :
  runLoop updateCmd (sampleWorld emptyServer) tt [desiredA; desiredB] "" false =
    ("" +:+ concatAll (map (absentBlock (sampleWorld emptyServer)) [desiredA; desiredB]),
     Returned (Some ErrDiffFound)).
Proof.
  apply (run_all_absent (sampleWorld emptyServer) updateCmd tt
           [desiredA; desiredB] "" false).
  repeat constructor; apply sample_absent; discriminate.
Defined.

Lemma run_error_sources_witness :
  Errorf "Error fetching one of the ConfigMap: it does not have a name set" =
    ErrDiffFound \/
  OpenAPISchema (sampleWorld sampleServer) =
    Err (Errorf "Error fetching one of the ConfigMap: it does not have a name set") \/
  (exists schemaDoc,
     OpenAPISchema (sampleWorld sampleServer) = Ok schemaDoc /\
     NewOpenAPIData (sampleWorld sampleServer) schemaDoc =
       Err (Errorf "Error fetching one of the ConfigMap: it does not have a name set")) \/
  (exists obj,
     obj ∈ AlphabeticalOrder (sampleWorld sampleServer) [nameless; desiredA] /\
     failureOf (sampleWorld sampleServer) strictCmd obj
       (Errorf "Error fetching one of the ConfigMap: it does not have a name set")).
Proof.
  apply (run_error_sources (sampleWorld sampleServer) strictCmd
           [nameless; desiredA] "").
  reflexivity.
Defined.



Lemma sample_covered :
  coveredOnServer (sampleWorld sampleServer) desiredA.
Proof.
  split; [done|]. split; [done|]. exists (mkUnstructured liveA).
  split; [done|]. split; [|done].
  apply removeFields_Ret_covers. by vm_compute.
Qed.

Lemma subset_covered_unchanged_witness :
  runLoop subsetCmd (sampleWorld sampleServer) tt [desiredA] "" false =
    ("" +:+ concatAll (map (unchangedBlock (sampleWorld sampleServer)) [desiredA]),
     Returned None).
Proof.
  apply (subset_covered_unchanged (sampleWorld sampleServer) subsetCmd tt
           [desiredA] "" false); [reflexivity|].
  constructor; [apply sample_covered|constructor].
Defined.

Lemma subset_unexpected_type_panics_witness :
  runLoop subsetCmd (sampleWorld sampleServer) tt [oddC; desiredA] "" false =
    ("" +:+ header (sampleWorld sampleServer) oddC, Panicked) /\
  snd (runLoop strictCmd (sampleWorld sampleServer) tt [oddC; desiredA] "" false)
    <> Panicked.
Proof.
  split.
  - apply (proj1 (subset_unexpected_type_panics (sampleWorld sampleServer)
                    subsetCmd tt)
             oddC (configMap "c" ∅) [desiredA] "" false "timeout" "int32");
      try reflexivity.
    discriminate.
  - apply (proj2 (subset_unexpected_type_panics (sampleWorld sampleServer)
                    strictCmd tt)).
    discriminate.
Defined.
